(** * Quasar: the ledger and the transaction processor

    A shallow embedding of [src/ledger/mod.rs] (the [Ledger] over a
    [HashMap<Uuid, Account>] and a [HashSet<Uuid>] of processed ids),
    [src/transaction_processor/mod.rs] (the [TransactionProcessor]), the
    result match of the handlers of [src/grpc_server.rs], and
    [src/persistence.rs] (snapshot save and load).

    Modelling choices.
    - A [Uuid] is its 128-bit value, an [N].  A [u64] is an [N] below
      [2^64]; [saturating_add] and [saturating_sub] are written out.
    - [Uuid::new_v4()] and [Utc::now()] are inputs: the caller supplies
      the fresh id and the clock readings.
    - Every operation runs in a state monad over the [Ledger] that also
      logs the lock events (acquire / release of the [RwLock]s), so the
      lock discipline can be read off the same definitions.  Locks are
      never poisoned in a sequential run, so the [map_err]/[unwrap] on
      lock acquisition never fires and is not modelled. *)

From Stdlib Require Import NArith ZArith Lia Ascii.
From stdpp Require Import base gmap sets list strings pretty.

Open Scope N_scope.

(** ** Data model ([src/models.rs], [src/ledger/mod.rs]) *)

Definition Uuid := N.

(** [chrono::DateTime<Utc>], as an instant. *)
Definition Timestamp := Z.

Definition u64_max : N := 2 ^ 64 - 1.

(** [u64::saturating_sub]: truncated at zero, which is what [N.sub] does. *)
Definition saturating_sub (a b : N) : N := a - b.

(** [u64::saturating_add]. *)
Definition saturating_add (a b : N) : N := N.min (a + b) u64_max.

Inductive Key :=
| CPF (s : string)
| Email (s : string)
| Phone (s : string)
| Random (s : string).

Record TransferInstruction := {
  source_account_id : Uuid;
  destination_account_id : Uuid;
  amount : N
}.

Record CreateAccountInstruction := { ca_keys : list Key }.

Record DepositInstruction := {
  dep_destination_account_id : Uuid;
  dep_amount : N
}.

Record GetBalanceInstruction := { gb_account_id : Uuid }.

Inductive Instruction :=
| Transfer (i : TransferInstruction)
| CreateAccount (i : CreateAccountInstruction)
| Deposit (i : DepositInstruction)
| GetBalance (i : GetBalanceInstruction).

Inductive TransactionStatus := Pending | Completed | Failed.

Record Transaction := {
  tx_id : Uuid;
  tx_instruction : Instruction;
  tx_status : TransactionStatus;
  tx_timestamp : Timestamp
}.

(** The history record pushed by [Ledger::commit_transfer]. *)
Record HistoricTransfer := {
  ht_transaction_id : Uuid;
  ht_instruction : TransferInstruction;
  ht_timestamp : Timestamp
}.

Record Account := {
  uuid : Uuid;
  balance : N;
  keys : list Key;
  transaction_history : list HistoricTransfer
}.

(** [Account::new(keys)], with the [Uuid::new_v4()] it draws supplied. *)
Definition Account_new (fresh : Uuid) (ks : list Key) : Uuid * Account :=
  (fresh, {| uuid := fresh; balance := 0; keys := ks; transaction_history := [] |}).

Definition set_balance (a : Account) (b : N) : Account :=
  {| uuid := uuid a; balance := b; keys := keys a;
     transaction_history := transaction_history a |}.

Definition push_history (a : Account) (h : HistoricTransfer) : Account :=
  {| uuid := uuid a; balance := balance a; keys := keys a;
     transaction_history := transaction_history a ++ [h] |}.

(** [struct Ledger]: the two fields behind their [RwLock]s. *)
Record Ledger := {
  accounts : gmap Uuid Account;
  processed_transactions : gset Uuid
}.

Module LedgerError.
Inductive LedgerError :=
| FailedToAcquireAccountsWriteLock
| FailedToAcquireAccountsReadLock
| FailedToAcquireTransactionsWriteLock
| FailedToAcquireTransactionsReadLock
| AccountNotFound
| TransactionAlreadyProcessed
| InsufficientFunds
(** Modelled from the spec: the arithmetic-overflow error of a deposit
    (spec 4.3 ArithmeticOverflow, surfaced as InvalidAmount by invariant 5
    and section 7); it is returned only by [deposit_into_account], which
    is not in the source. *)
| InvalidAmount.
End LedgerError.

Module TransactionProcessorError.
Inductive TransactionProcessorError :=
| LedgerError (e : LedgerError.LedgerError)
| TransactionAlreadyProcessed
| InsufficientFunds
| FailedToAcquireLedgerLock.
End TransactionProcessorError.

Abbreviation LedgerErr := LedgerError.LedgerError.
Abbreviation ProcErr := TransactionProcessorError.TransactionProcessorError.

Inductive TransactionResult :=
| Success
| AccountCreated (id : Uuid)
| Balance (b : N).

Inductive result (A E : Type) := Ok (a : A) | Err (e : E).
Arguments Ok {A E} a.
Arguments Err {A E} e.

(** ** Locks *)

(** The three [RwLock]s of the program: the processor's
    [Arc<RwLock<dyn LedgerInterface>>], and the ledger's [accounts] and
    [processed_transactions] fields. *)
Inductive LockName := LedgerLock | AccountsLock | ProcessedLock.
Inductive Mode := Read | Write.

Inductive LockEvent :=
| Acquire (n : LockName) (m : Mode)
| Release (n : LockName) (m : Mode).

(** ** The state, error and lock-log monad *)

Definition M (E A : Type) : Type :=
  Ledger -> result A E * Ledger * list LockEvent.

Definition ret {E A} (a : A) : M E A := fun l => (Ok a, l, []).
Definition throw {E A} (e : E) : M E A := fun l => (Err e, l, []).
Definition get {E} : M E Ledger := fun l => (Ok l, l, []).
Definition put {E} (l' : Ledger) : M E unit := fun _ => (Ok tt, l', []).

Definition bind {E A B} (m : M E A) (k : A -> M E B) : M E B :=
  fun l =>
    match m l with
    | (Ok a, l1, w1) => let '(r, l2, w2) := k a l1 in (r, l2, w1 ++ w2)
    | (Err e, l1, w1) => (Err e, l1, w1)
    end.

Notation "'let*' x := m 'in' k" := (bind m (fun x => k))
  (at level 200, x binder, m at level 100, k at level 200).

(** A guard held over [m]: acquired first, released when [m] returns,
    by an early [return] or a [?] as well. *)
Definition with_lock {E A} (n : LockName) (md : Mode) (m : M E A) : M E A :=
  fun l => let '(r, l1, w) := m l in (r, l1, Acquire n md :: w ++ [Release n md]).

(** The [?] of the processor: [From<LedgerError> for TransactionProcessorError]. *)
Definition lift {A} (m : M LedgerErr A) : M ProcErr A :=
  fun l =>
    match m l with
    | (Ok a, l1, w) => (Ok a, l1, w)
    | (Err e, l1, w) => (Err (TransactionProcessorError.LedgerError e), l1, w)
    end.

(** ** [impl LedgerInterface for Ledger] ([src/ledger/mod.rs]) *)

Definition create_account (fresh : Uuid) (ks : list Key) : M LedgerErr Uuid :=
  with_lock AccountsLock Write (
    let* l := get in
    let '(account_id, account) := Account_new fresh ks in
    let* _ := put {| accounts := <[account_id := account]> (accounts l);
                     processed_transactions := processed_transactions l |} in
    ret account_id).

Definition get_account (id : Uuid) : M LedgerErr Account :=
  with_lock AccountsLock Read (
    let* l := get in
    match accounts l !! id with
    | Some a => ret a
    | None => throw LedgerError.AccountNotFound
    end).

(** [commit_transfer] takes the two account copies by [&mut]; the updated
    copies are returned alongside [()]. *)
Definition commit_transfer (transaction_id : Uuid) (instruction : TransferInstruction)
    (source_account dest_account : Account) (now1 now2 : Timestamp)
    : M LedgerErr (Account * Account) :=
  with_lock AccountsLock Write (
  with_lock ProcessedLock Write (
    let* l := get in
    if decide (transaction_id ∈ processed_transactions l)
    then throw LedgerError.TransactionAlreadyProcessed
    else
      let source_account := push_history source_account
        {| ht_transaction_id := transaction_id; ht_instruction := instruction;
           ht_timestamp := now1 |} in
      let dest_account := push_history dest_account
        {| ht_transaction_id := transaction_id; ht_instruction := instruction;
           ht_timestamp := now2 |} in
      let accs := <[uuid source_account := source_account]> (accounts l) in
      let accs := <[uuid dest_account := dest_account]> accs in
      let* _ := put {| accounts := accs;
                       processed_transactions := {[ transaction_id ]} ∪ processed_transactions l |} in
      ret (source_account, dest_account))).

Definition is_transaction_processed (transaction_id : Uuid) : M LedgerErr bool :=
  with_lock ProcessedLock Read (
    let* l := get in
    ret (bool_decide (transaction_id ∈ processed_transactions l))).

Definition mark_transaction_processed (transaction_id : Uuid) : M LedgerErr unit :=
  with_lock ProcessedLock Write (
    let* l := get in
    put {| accounts := accounts l;
           processed_transactions := {[ transaction_id ]} ∪ processed_transactions l |}).

(** Modelled from the spec: [Ledger::deposit_into_account], called by
    [process_deposit] but defined nowhere in the source.  Spec 4.3: under the
    account's exclusive lock, [balance += amount] checked for overflow;
    AccountNotFound when the account is absent, and the overflow error
    (named InvalidAmount by invariant 5) when the sum exceeds [u64::MAX]. *)
Definition deposit_into_account (id : Uuid) (amt : N) : M LedgerErr unit :=
  with_lock AccountsLock Write (
    let* l := get in
    match accounts l !! id with
    | None => throw LedgerError.AccountNotFound
    | Some account =>
        if decide (balance account + amt <= u64_max)
        then put {| accounts := <[id := set_balance account (balance account + amt)]> (accounts l);
                    processed_transactions := processed_transactions l |}
        else throw LedgerError.InvalidAmount
    end).

(** ** [TransactionProcessor] ([src/transaction_processor/mod.rs]) *)

Definition process_transfer (transaction_id : Uuid) (instruction : TransferInstruction)
    (now1 now2 : Timestamp) : M ProcErr TransactionResult :=
  with_lock LedgerLock Write (
    let* processed := lift (is_transaction_processed transaction_id) in
    if processed then throw TransactionProcessorError.TransactionAlreadyProcessed else
    let* source_account := lift (get_account (source_account_id instruction)) in
    let* dest_account := lift (get_account (destination_account_id instruction)) in
    if decide (balance source_account < amount instruction)
    then throw TransactionProcessorError.InsufficientFunds
    else
      let source_account :=
        set_balance source_account (saturating_sub (balance source_account) (amount instruction)) in
      let dest_account :=
        set_balance dest_account (saturating_add (balance dest_account) (amount instruction)) in
      let* _ := lift (commit_transfer transaction_id instruction source_account dest_account now1 now2) in
      ret Success).

Definition process_create_account (transaction_id : Uuid) (instruction : CreateAccountInstruction)
    (fresh : Uuid) : M ProcErr TransactionResult :=
  with_lock LedgerLock Write (
    let* processed := lift (is_transaction_processed transaction_id) in
    if processed then throw TransactionProcessorError.TransactionAlreadyProcessed else
    let* created_account_id := lift (create_account fresh (ca_keys instruction)) in
    let* _ := lift (mark_transaction_processed transaction_id) in
    ret (AccountCreated created_account_id)).

Definition process_deposit (transaction_id : Uuid) (instruction : DepositInstruction)
    : M ProcErr TransactionResult :=
  with_lock LedgerLock Write (
    let* processed := lift (is_transaction_processed transaction_id) in
    if processed then throw TransactionProcessorError.TransactionAlreadyProcessed else
    let* _ := lift (deposit_into_account (dep_destination_account_id instruction)
                                         (dep_amount instruction)) in
    let* _ := lift (mark_transaction_processed transaction_id) in
    ret Success).

Definition get_balance (account_id : Uuid) : M ProcErr TransactionResult :=
  with_lock LedgerLock Read (
    let* account := lift (get_account account_id) in
    ret (Balance (balance account))).

(** What the processor draws from outside: [Uuid::new_v4()] for a new
    account and the two [Utc::now()] readings of [commit_transfer]. *)
Record Env := { env_fresh : Uuid; env_now1 : Timestamp; env_now2 : Timestamp }.

Definition process_transaction (env : Env) (transaction : Transaction)
    : M ProcErr TransactionResult :=
  match tx_instruction transaction with
  | Transfer inst => process_transfer (tx_id transaction) inst (env_now1 env) (env_now2 env)
  | CreateAccount inst => process_create_account (tx_id transaction) inst (env_fresh env)
  | Deposit inst => process_deposit (tx_id transaction) inst
  | GetBalance inst => get_balance (gb_account_id inst)
  end.

(** ** Reachable ledgers

    Every account is stored under its own [uuid] and its balance is a [u64]. *)
Definition wf (l : Ledger) : Prop :=
  forall k a, accounts l !! k = Some a -> uuid a = k /\ balance a <= u64_max.

(** The lock events of [process_transfer] inside the ledger-wide guard,
    when it runs to [commit_transfer]; the early returns stop at a prefix. *)
Definition transfer_lock_sequence : list LockEvent :=
  [Acquire ProcessedLock Read; Release ProcessedLock Read;
   Acquire AccountsLock Read; Release AccountsLock Read;
   Acquire AccountsLock Read; Release AccountsLock Read;
   Acquire AccountsLock Write; Acquire ProcessedLock Write;
   Release ProcessedLock Write; Release AccountsLock Write].

Definition transfer_trace (k : nat) : list LockEvent :=
  Acquire LedgerLock Write :: firstn k transfer_lock_sequence ++ [Release LedgerLock Write].

(** The accounts a lock guards: the ledger-wide lock and the accounts-map
    lock guard every account, the processed-id set lock guards none. *)
Definition guards (n : LockName) (u : Uuid) : bool :=
  match n with
  | LedgerLock | AccountsLock => true
  | ProcessedLock => false
  end.

(** A per-entry lock of account [u]: it guards [u] and no other account. *)
Definition per_entry_lock (n : LockName) (u : Uuid) : Prop :=
  guards n u = true /\ forall v, guards n v = true -> v = u.

(** The history record [commit_transfer] appends. *)
Definition hist (tid : Uuid) (i : TransferInstruction) (t : Timestamp) : HistoricTransfer :=
  {| ht_transaction_id := tid; ht_instruction := i; ht_timestamp := t |}.

(** What a committed transfer writes: the source copy, then the destination
    copy, each under its own [uuid]. *)
Definition transfer_commit (l : Ledger) (tid : Uuid) (i : TransferInstruction)
    (sa da : Account) (now1 now2 : Timestamp) : Ledger :=
  {| accounts :=
       <[uuid da := push_history (set_balance da (saturating_add (balance da) (amount i)))
                                 (hist tid i now2)]>
       (<[uuid sa := push_history (set_balance sa (saturating_sub (balance sa) (amount i)))
                                  (hist tid i now1)]> (accounts l));
     processed_transactions := {[ tid ]} ∪ processed_transactions l |}.

(** The sum of all balances of the ledger. *)
Definition total_balance (l : Ledger) : N :=
  map_fold (fun _ a s => balance a + s) 0 (accounts l).

(** ** The gRPC handlers ([src/grpc_server.rs]) *)

(** What a [GrpcService] handler returns once the request has been turned
    into a [Transaction]: a response ([success] true or false), or
    [Status::internal("Unexpected processor result")]. *)
Inductive GrpcReply := Reply (success : bool) | InternalStatus.

(** The [match processor.process_transaction(...)] of the four handlers; the
    instruction tells which handler built the transaction ([create_account],
    [process_transfer], [process_deposit], [get_balance]). *)
Definition grpc_reply (i : Instruction) (r : result TransactionResult ProcErr) : GrpcReply :=
  match i, r with
  | CreateAccount _, Ok (AccountCreated _) => Reply true
  | Transfer _, Ok Success => Reply true
  | Deposit _, Ok Success => Reply true
  | GetBalance _, Ok (Balance _) => Reply true
  | _, Err _ => Reply false
  | _, Ok _ => InternalStatus
  end.

(** ** Snapshot persistence ([src/persistence.rs]) *)

Module Persistence.

(** [Account] of [src/models.rs] as [persistence.rs] stores it: the history
    is the list of transaction ids. *)
Record PAccount := {
  p_uuid : Uuid;
  p_balance : N;
  p_keys : list Key;
  p_transaction_history : list Uuid
}.

(** The engine state handed to [save_state] and returned by [load_state]:
    the [DashMap<Uuid, Account>], the [DashMap<Uuid, Transaction>] and the
    [DashSet<Uuid>]. *)
Record Snapshot := {
  s_accounts : gmap Uuid PAccount;
  s_transactions : gmap Uuid Transaction;
  s_processed : gset Uuid
}.

(** A value as SQLite stores it.  [SqlReal lit] is the REAL nearest to the
    numeric literal [lit]. *)
Inductive SqlValue :=
| SqlInteger (z : Z)
| SqlReal (lit : string)
| SqlText (s : string).

#[global] Instance SqlValue_eq_dec : EqDecision SqlValue.
Proof. solve_decision. Defined.

Definition i64_max : Z := (2 ^ 63 - 1)%Z.

Definition digit_value (c : ascii) : option N :=
  let n := nat_of_ascii c in
  if (48 <=? n)%nat && (n <=? 57)%nat then Some (N.of_nat (n - 48)) else None.

Fixpoint parse_digits (acc : N) (s : string) : option N :=
  match s with
  | EmptyString => Some acc
  | String c s' =>
      match digit_value c with
      | Some d => parse_digits (10 * acc + d) s'
      | None => None
      end
  end.

(** A well-formed unsigned integer literal, the only kind of text
    [u64::to_string] produces. *)
Definition parse_decimal (s : string) : option N :=
  match s with
  | EmptyString => None
  | _ => parse_digits 0 s
  end.

(** SQLite's INTEGER column affinity applied to a bound TEXT value: a
    well-formed integer literal becomes an INTEGER when it fits a signed
    64-bit integer and a REAL when it is too large; other text is kept
    (the real literals SQLite would also convert are never bound here). *)
Definition integer_affinity (s : string) : SqlValue :=
  match parse_decimal s with
  | Some n => if decide (Z.of_N n <= i64_max)%Z then SqlInteger (Z.of_N n) else SqlReal s
  | None => SqlText s
  end.

(** The [rusqlite::Error]s the two functions can return. *)
Inductive SqlError :=
| InvalidColumnType (idx : nat)
| IntegralValueOutOfRange (idx : nat) (i : Z)
| UniqueConstraintFailed.

(** [row.get::<_, String>(idx)]. *)
Definition get_string (idx : nat) (v : SqlValue) : result string SqlError :=
  match v with
  | SqlText s => Ok s
  | _ => Err (InvalidColumnType idx)
  end.

(** [row.get::<_, u64>(idx)]: read as [i64], then [u64::try_from]. *)
Definition get_u64 (idx : nat) (v : SqlValue) : result N SqlError :=
  match v with
  | SqlInteger i => if decide (0 <= i)%Z then Ok (Z.to_N i) else Err (IntegralValueOutOfRange idx i)
  | _ => Err (InvalidColumnType idx)
  end.

Record AccountRow := { r_uuid : SqlValue; r_balance : SqlValue; r_keys : SqlValue; r_history : SqlValue }.
Record TransactionRow := { r_id : SqlValue; r_instruction : SqlValue; r_status : SqlValue; r_timestamp : SqlValue }.

(** The three tables, rows in insertion order. *)
Record Db := {
  t_accounts : list AccountRow;
  t_transactions : list TransactionRow;
  t_processed : list SqlValue
}.

Definition empty_db : Db := {| t_accounts := []; t_transactions := []; t_processed := [] |}.

(** A text encoding and its parser: [Uuid::to_string]/[Uuid::parse_str],
    [serde_json::to_string]/[from_str], [to_rfc3339]/[parse]. *)
Record Codec (A : Type) := { encode : A -> string; decode : string -> option A }.
Arguments encode {A} _ _.
Arguments decode {A} _ _.

(** What [load_state] can end in besides its result: an [Err] of a [?], or
    the panic of an [unwrap()]. *)
Inductive LoadError := SqlErr (e : SqlError) | Panic.

(** [for x in xs { tx.execute(INSERT ...)?; }] *)
Fixpoint insert_all {A R} (f : list R -> A -> result (list R) SqlError)
    (t : list R) (xs : list A) : result (list R) SqlError :=
  match xs with
  | [] => Ok t
  | x :: xs' => match f t x with Ok t' => insert_all f t' xs' | Err e => Err e end
  end.

(** [for row in iter { let (k, v) = row?; map.insert(k, v); }] *)
Fixpoint load_all {R K V} `{Countable K} (f : R -> result (K * V) LoadError)
    (m : gmap K V) (rows : list R) : result (gmap K V) LoadError :=
  match rows with
  | [] => Ok m
  | r :: rows' => match f r with Ok (k, v) => load_all f (<[k := v]> m) rows' | Err e => Err e end
  end.

Section Persistence.
Context (uuid_c : Codec Uuid) (keys_c : Codec (list Key)) (history_c : Codec (list Uuid))
        (instruction_c : Codec Instruction) (status_c : Codec TransactionStatus)
        (rfc3339_c : Codec Timestamp).

(** An INSERT into a table whose first column is the TEXT PRIMARY KEY. *)
Definition insert_pk {R} (pk : R -> SqlValue) (t : list R) (row : R) : result (list R) SqlError :=
  if existsb (fun r => bool_decide (pk r = pk row)) t then Err UniqueConstraintFailed
  else Ok (t ++ [row]).

Definition account_row (a : PAccount) : AccountRow :=
  {| r_uuid := SqlText (encode uuid_c (p_uuid a));
     r_balance := integer_affinity (pretty (p_balance a));
     r_keys := SqlText (encode keys_c (p_keys a));
     r_history := SqlText (encode history_c (p_transaction_history a)) |}.

Definition transaction_row (t : Transaction) : TransactionRow :=
  {| r_id := SqlText (encode uuid_c (tx_id t));
     r_instruction := SqlText (encode instruction_c (tx_instruction t));
     r_status := SqlText (encode status_c (tx_status t));
     r_timestamp := SqlText (encode rfc3339_c (tx_timestamp t)) |}.

(** [save_state]: one SQL transaction that empties the three tables and
    inserts every entry; an error rolls it back, leaving the old file. *)
Definition save_state (s : Snapshot) : result Db SqlError :=
  match insert_all (fun t a => insert_pk r_uuid t (account_row a)) []
                   (map snd (map_to_list (s_accounts s))) with
  | Err e => Err e
  | Ok ta =>
  match insert_all (fun t x => insert_pk r_id t (transaction_row x)) []
                   (map snd (map_to_list (s_transactions s))) with
  | Err e => Err e
  | Ok tt' =>
  match insert_all (fun t x => insert_pk (fun v => v) t (SqlText (encode uuid_c x))) []
                   (elements (s_processed s)) with
  | Err e => Err e
  | Ok tp => Ok {| t_accounts := ta; t_transactions := tt'; t_processed := tp |}
  end end end.

(** The [query_map] closure over a row of [accounts]. *)
Definition load_account_row (r : AccountRow) : result (Uuid * PAccount) LoadError :=
  match get_string 0 (r_uuid r) with Err e => Err (SqlErr e) | Ok s =>
  match decode uuid_c s with None => Err Panic | Some u =>
  match get_u64 1 (r_balance r) with Err e => Err (SqlErr e) | Ok b =>
  match get_string 2 (r_keys r) with Err e => Err (SqlErr e) | Ok ks =>
  match get_string 3 (r_history r) with Err e => Err (SqlErr e) | Ok hs =>
  match decode keys_c ks with None => Err Panic | Some k =>
  match decode history_c hs with None => Err Panic | Some h =>
    Ok (u, {| p_uuid := u; p_balance := b; p_keys := k; p_transaction_history := h |})
  end end end end end end end.

(** The [query_map] closure over a row of [transactions]. *)
Definition load_transaction_row (r : TransactionRow) : result (Uuid * Transaction) LoadError :=
  match get_string 0 (r_id r) with Err e => Err (SqlErr e) | Ok s =>
  match decode uuid_c s with None => Err Panic | Some id =>
  match get_string 1 (r_instruction r) with Err e => Err (SqlErr e) | Ok is =>
  match get_string 2 (r_status r) with Err e => Err (SqlErr e) | Ok ss =>
  match get_string 3 (r_timestamp r) with Err e => Err (SqlErr e) | Ok ts =>
  match decode instruction_c is with None => Err Panic | Some i =>
  match decode status_c ss with None => Err Panic | Some st =>
  match decode rfc3339_c ts with None => Err Panic | Some t =>
    Ok (id, {| tx_id := id; tx_instruction := i; tx_status := st; tx_timestamp := t |})
  end end end end end end end end.

Definition load_processed_row (v : SqlValue) : result (Uuid * unit) LoadError :=
  match get_string 0 v with Err e => Err (SqlErr e) | Ok s =>
  match decode uuid_c s with None => Err Panic | Some id => Ok (id, ()) end end.

(** [load_state]: the three scans, in order. *)
Definition load_state (db : Db) : result Snapshot LoadError :=
  match load_all load_account_row ∅ (t_accounts db) with Err e => Err e | Ok accs =>
  match load_all load_transaction_row ∅ (t_transactions db) with Err e => Err e | Ok txs =>
  match load_all load_processed_row ∅ (t_processed db) with Err e => Err e | Ok ps =>
    Ok {| s_accounts := accs; s_transactions := txs; s_processed := dom ps |}
  end end end.
End Persistence.

End Persistence.

(** Test data: an account with no keys and no history. *)
Definition mk_account (id b : N) : Account :=
  {| uuid := id; balance := b; keys := []; transaction_history := [] |}.

(** Test data: a ledger with the given accounts, each stored under its own uuid. *)
Definition ledger_of (accs : list Account) (P : gset Uuid) : Ledger :=
  {| accounts := list_to_map (map (fun a => (uuid a, a)) accs);
     processed_transactions := P |}.

Ltac run_monad :=
  repeat (unfold process_transfer, process_create_account, process_deposit, get_balance,
          commit_transfer, get_account, is_transaction_processed,
          mark_transaction_processed, create_account, deposit_into_account,
          with_lock, lift, bind, ret, throw, get, put; cbn).

(** [process_transfer], case by case. *)
Lemma process_transfer_eq (l : Ledger) (tid : Uuid) (i : TransferInstruction) (now1 now2 : Timestamp) :
  process_transfer tid i now1 now2 l =
  if decide (tid ∈ processed_transactions l)
  then (Err TransactionProcessorError.TransactionAlreadyProcessed, l, transfer_trace 2)
  else match accounts l !! source_account_id i with
       | None => (Err (TransactionProcessorError.LedgerError LedgerError.AccountNotFound), l,
                  transfer_trace 4)
       | Some sa =>
           match accounts l !! destination_account_id i with
           | None => (Err (TransactionProcessorError.LedgerError LedgerError.AccountNotFound), l,
                      transfer_trace 6)
           | Some da =>
               if decide (balance sa < amount i)
               then (Err TransactionProcessorError.InsufficientFunds, l, transfer_trace 6)
               else (Ok Success, transfer_commit l tid i sa da now1 now2, transfer_trace 10)
           end
       end.
Proof.
  run_monad.
  destruct (decide (tid ∈ processed_transactions l)) as [Hin|Hnin].
  - rewrite bool_decide_true by done. reflexivity.
  - rewrite bool_decide_false by done. cbn.
    destruct (accounts l !! source_account_id i) as [sa|]; cbn; [|reflexivity].
    destruct (accounts l !! destination_account_id i) as [da|]; cbn; [|reflexivity].
    destruct (decide (balance sa < amount i)); [reflexivity|].
    cbn. destruct (decide (tid ∈ processed_transactions l)); [contradiction|].
    reflexivity.
Qed.

(** [commit_transfer], case by case. *)
Lemma commit_transfer_eq (l : Ledger) (tid : Uuid) (i : TransferInstruction)
    (sa da : Account) (now1 now2 : Timestamp) :
  commit_transfer tid i sa da now1 now2 l =
  if decide (tid ∈ processed_transactions l)
  then (Err LedgerError.TransactionAlreadyProcessed, l,
        [Acquire AccountsLock Write; Acquire ProcessedLock Write;
         Release ProcessedLock Write; Release AccountsLock Write])
  else (Ok (push_history sa (hist tid i now1), push_history da (hist tid i now2)),
        {| accounts := <[uuid da := push_history da (hist tid i now2)]>
                         (<[uuid sa := push_history sa (hist tid i now1)]> (accounts l));
           processed_transactions := {[ tid ]} ∪ processed_transactions l |},
        [Acquire AccountsLock Write; Acquire ProcessedLock Write;
         Release ProcessedLock Write; Release AccountsLock Write]).
Proof.
  run_monad. destruct (decide (tid ∈ processed_transactions l)); reflexivity.
Qed.

(** [process_deposit], case by case. *)
Lemma process_deposit_eq (l : Ledger) (tid : Uuid) (i : DepositInstruction) :
  fst (process_deposit tid i l) =
  if decide (tid ∈ processed_transactions l)
  then (Err TransactionProcessorError.TransactionAlreadyProcessed, l)
  else match accounts l !! dep_destination_account_id i with
       | None => (Err (TransactionProcessorError.LedgerError LedgerError.AccountNotFound), l)
       | Some a =>
           if decide (balance a + dep_amount i <= u64_max)
           then (Ok Success,
                 {| accounts := <[dep_destination_account_id i :=
                                    set_balance a (balance a + dep_amount i)]> (accounts l);
                    processed_transactions := {[ tid ]} ∪ processed_transactions l |})
           else (Err (TransactionProcessorError.LedgerError LedgerError.InvalidAmount), l)
       end.
Proof.
  run_monad.
  destruct (decide (tid ∈ processed_transactions l)) as [Hin|Hnin].
  - rewrite bool_decide_true by done. reflexivity.
  - rewrite bool_decide_false by done. cbn.
    destruct (accounts l !! dep_destination_account_id i) as [a|]; cbn; [|reflexivity].
    destruct (decide (balance a + dep_amount i <= u64_max)); reflexivity.
Qed.

(** [process_create_account], case by case. *)
Lemma process_create_account_eq (l : Ledger) (tid : Uuid) (i : CreateAccountInstruction)
    (fresh : Uuid) :
  fst (process_create_account tid i fresh l) =
  if decide (tid ∈ processed_transactions l)
  then (Err TransactionProcessorError.TransactionAlreadyProcessed, l)
  else (Ok (AccountCreated fresh),
        {| accounts := <[fresh := snd (Account_new fresh (ca_keys i))]> (accounts l);
           processed_transactions := {[ tid ]} ∪ processed_transactions l |}).
Proof.
  run_monad.
  destruct (decide (tid ∈ processed_transactions l)) as [Hin|Hnin].
  - rewrite bool_decide_true by done. reflexivity.
  - rewrite bool_decide_false by done. reflexivity.
Qed.

Lemma get_balance_state (l : Ledger) (id : Uuid) :
  snd (fst (get_balance id l)) = l.
Proof. run_monad. destruct (accounts l !! id); reflexivity. Qed.

(** Reachable ledgers stay reachable. *)
Lemma wf_process_transaction (env : Env) (tx : Transaction) (l : Ledger) :
  wf l -> wf (snd (fst (process_transaction env tx l))).
Proof.
  intros Hwf. unfold process_transaction.
  destruct (tx_instruction tx) as [i|i|i|i].
  - rewrite process_transfer_eq.
    destruct (decide _); [done|].
    destruct (accounts l !! source_account_id i) as [sa|] eqn:Hs; [|done].
    destruct (accounts l !! destination_account_id i) as [da|] eqn:Hd; [|done].
    destruct (decide _); [done|]. cbn.
    intros k a Hk. cbn in Hk.
    apply lookup_insert_Some in Hk as [[<- <-]|[Hne Hk]].
    { cbn. split; [done|]. unfold saturating_add. lia. }
    apply lookup_insert_Some in Hk as [[<- <-]|[Hne' Hk]].
    { cbn. apply Hwf in Hs as [_ Hb]. split; [done|]. unfold saturating_sub. lia. }
    by apply Hwf.
  - pose proof (process_create_account_eq l (tx_id tx) i (env_fresh env)) as E.
    destruct (process_create_account _ _ _ l) as [[r l'] w]. cbn in E |- *.
    destruct (decide _); injection E as -> ->; [done|].
    intros k a Hk. cbn in Hk.
    apply lookup_insert_Some in Hk as [[<- <-]|[Hne Hk]].
    { cbn. split; [done|]. unfold u64_max. lia. }
    by apply Hwf.
  - pose proof (process_deposit_eq l (tx_id tx) i) as E.
    destruct (process_deposit _ _ l) as [[r l'] w]. cbn in E |- *.
    destruct (decide _); [injection E as -> ->; done|].
    destruct (accounts l !! dep_destination_account_id i) as [a0|] eqn:Ha;
      [|injection E as -> ->; done].
    destruct (decide _) as [Hle|]; [|injection E as -> ->; done].
    injection E as -> ->.
    intros k a Hk. cbn in Hk.
    apply lookup_insert_Some in Hk as [[<- <-]|[Hne Hk]].
    { cbn. apply Hwf in Ha as [Hu _]. split; [done|lia]. }
    by apply Hwf.
  - by rewrite get_balance_state.
Qed.

Lemma wf_empty : wf {| accounts := ∅; processed_transactions := ∅ |}.
Proof. intros k a Hk. cbn in Hk. by rewrite lookup_empty in Hk. Qed.

Lemma wf_insert (l : Ledger) (k : Uuid) (a : Account) (P : gset Uuid) :
  wf l -> uuid a = k -> balance a <= u64_max ->
  wf {| accounts := <[k := a]> (accounts l); processed_transactions := P |}.
Proof.
  intros Hwf Hu Hb k' a' Hk. cbn in Hk.
  apply lookup_insert_Some in Hk as [[<- <-]|[_ Hk]]; [done|by apply Hwf].
Qed.

Lemma wf_with_processed (l : Ledger) (P : gset Uuid) :
  wf l -> wf {| accounts := accounts l; processed_transactions := P |}.
Proof. intros Hwf k a Hk. by apply Hwf. Qed.


Lemma wf_ledger_of (accs : list Account) (P : gset Uuid) :
  Forall (fun a => balance a <= u64_max) accs -> wf (ledger_of accs P).
Proof.
  induction 1 as [|a accs Ha Hall IH].
  - intros k a Hk. unfold ledger_of in Hk. simpl in Hk. by rewrite lookup_empty in Hk.
  - intros k a' Hk. cbn in Hk.
    apply lookup_insert_Some in Hk as [[<- <-]|[_ Hk]]; [done|by apply IH].
Qed.

(** A transfer with an unprocessed id between existing accounts, the source
    covering the amount, commits. *)
Lemma transfer_succeeds (tid : Uuid) (i : TransferInstruction) :
  forall (l2 : Ledger) (sa da : Account) (now1' now2' : Timestamp),
    tid ∉ processed_transactions l2 ->
    accounts l2 !! source_account_id i = Some sa ->
    accounts l2 !! destination_account_id i = Some da ->
    amount i <= balance sa ->
    fst (fst (process_transfer tid i now1' now2' l2)) = Ok Success.
Proof.
  intros l2 sa da n1 n2 Hn Hs Hd Hb. rewrite process_transfer_eq.
  destruct (decide (tid ∈ processed_transactions l2)); [contradiction|]. rewrite Hs, Hd.
  destruct (decide (balance sa < amount i)); [lia|reflexivity].
Qed.

(** ** Claims *)

(** C1. Self-transfer: for every Transfer whose source and destination are the
    same existing account, with an unprocessed id and a balance covering the
    amount, [process_transfer] commits with Success and leaves that account's
    balance at [saturating_add b a] (the destination copy, written last),
    not at [b]: the balance grows by the amount. *)
Theorem self_transfer_credits_amount (l : Ledger) (tid : Uuid) (i : TransferInstruction)
    (now1 now2 : Timestamp) (a : Account) :
  wf l ->
  source_account_id i = destination_account_id i ->
  tid ∉ processed_transactions l ->
  accounts l !! source_account_id i = Some a ->
  amount i <= balance a ->
  fst (fst (process_transfer tid i now1 now2 l)) = Ok Success /\
  fmap balance (accounts (snd (fst (process_transfer tid i now1 now2 l))) !! source_account_id i)
    = Some (saturating_add (balance a) (amount i)).
Proof.
  intros Hwf Heq Hnin Ha Hamt.
  rewrite process_transfer_eq.
  destruct (decide _); [contradiction|].
  rewrite Ha, <- Heq, Ha.
  destruct (decide _); [lia|]. cbn. split; [done|].
  apply Hwf in Ha as [Hu _]. rewrite Hu, lookup_insert_eq. reflexivity.
Qed.

Lemma self_transfer_credits_amount_witness :
  fst (fst (process_transfer 102 {| source_account_id := 7; destination_account_id := 7; amount := 50 |}
                             1%Z 2%Z (ledger_of [mk_account 7 100] ∅))) = Ok Success /\
  fmap balance (accounts (snd (fst (process_transfer 102
      {| source_account_id := 7; destination_account_id := 7; amount := 50 |}
      1%Z 2%Z (ledger_of [mk_account 7 100] ∅)))) !! 7)
    = Some (saturating_add 100 50).
Proof.
  apply (self_transfer_credits_amount (ledger_of [mk_account 7 100] ∅) 102
           {| source_account_id := 7; destination_account_id := 7; amount := 50 |}
           1%Z 2%Z (mk_account 7 100)).
  - apply wf_ledger_of. repeat constructor. cbn. unfold u64_max. lia.
  - reflexivity.
  - cbn. set_solver.
  - reflexivity.
  - cbn. lia.
Defined.

(** C2, counterexample.  Source 1 holds 10, destination 2 holds [u64::MAX];
    a transfer of 5 commits with Success and the two balances now sum to 5
    less than before: the addition saturated instead of failing. *)
Lemma transfer_saturates_destination :
  let l := ledger_of [mk_account 1 10; mk_account 2 u64_max] ∅ in
  let i := {| source_account_id := 1; destination_account_id := 2; amount := 5 |} in
  let l' := snd (fst (process_transfer 9 i 0%Z 0%Z l)) in
  fst (fst (process_transfer 9 i 0%Z 0%Z l)) = Ok Success /\
  fmap balance (accounts l' !! 1) = Some 5 /\
  fmap balance (accounts l' !! 2) = Some u64_max /\
  5 + u64_max <> 10 + u64_max.
Proof. vm_compute. repeat split; discriminate. Qed.

(** C2 (amended).  For every successful Transfer of amount [a] between two
    distinct accounts of a reachable ledger, the source balance becomes
    [b_src - a] (with [a <= b_src]) and the destination balance becomes
    [min (b_dst + a) u64::MAX]; so the sum of the two balances is unchanged
    whenever [b_dst + a <= u64::MAX], and otherwise the destination saturates
    and the transfer still returns Success. *)
Theorem transfer_moves_amount (l : Ledger) (tid : Uuid) (i : TransferInstruction)
    (now1 now2 : Timestamp) :
  wf l ->
  source_account_id i <> destination_account_id i ->
  fst (fst (process_transfer tid i now1 now2 l)) = Ok Success ->
  exists bs bd,
    fmap balance (accounts l !! source_account_id i) = Some bs /\
    fmap balance (accounts l !! destination_account_id i) = Some bd /\
    amount i <= bs /\
    fmap balance (accounts (snd (fst (process_transfer tid i now1 now2 l))) !! source_account_id i)
      = Some (bs - amount i) /\
    fmap balance (accounts (snd (fst (process_transfer tid i now1 now2 l))) !! destination_account_id i)
      = Some (N.min (bd + amount i) u64_max) /\
    (bd + amount i <= u64_max -> (bs - amount i) + N.min (bd + amount i) u64_max = bs + bd).
Proof.
  intros Hwf Hne Hok.
  rewrite process_transfer_eq in Hok |- *.
  destruct (decide _); [discriminate|].
  destruct (accounts l !! source_account_id i) as [sa|] eqn:Hs; [|discriminate].
  destruct (accounts l !! destination_account_id i) as [da|] eqn:Hd; [|discriminate].
  destruct (decide _) as [|Hge]; [discriminate|].
  exists (balance sa), (balance da).
  apply Hwf in Hs as [Hus _]. apply Hwf in Hd as [Hud _].
  cbn. rewrite Hud, Hus.
  rewrite lookup_insert_ne by done. rewrite lookup_insert_eq.
  rewrite lookup_insert_eq.
  cbn. unfold saturating_sub, saturating_add.
  repeat split; try reflexivity; lia.
Qed.

Lemma transfer_moves_amount_witness :
  exists bs bd,
    fmap balance (accounts (ledger_of [mk_account 1 1000; mk_account 2 0] ∅) !! 1) = Some bs /\
    fmap balance (accounts (ledger_of [mk_account 1 1000; mk_account 2 0] ∅) !! 2) = Some bd /\
    250 <= bs /\
    fmap balance (accounts (snd (fst (process_transfer 5
        {| source_account_id := 1; destination_account_id := 2; amount := 250 |} 0%Z 0%Z
        (ledger_of [mk_account 1 1000; mk_account 2 0] ∅)))) !! 1) = Some (bs - 250) /\
    fmap balance (accounts (snd (fst (process_transfer 5
        {| source_account_id := 1; destination_account_id := 2; amount := 250 |} 0%Z 0%Z
        (ledger_of [mk_account 1 1000; mk_account 2 0] ∅)))) !! 2)
      = Some (N.min (bd + 250) u64_max) /\
    (bd + 250 <= u64_max -> (bs - 250) + N.min (bd + 250) u64_max = bs + bd).
Proof.
  apply (transfer_moves_amount (ledger_of [mk_account 1 1000; mk_account 2 0] ∅) 5
           {| source_account_id := 1; destination_account_id := 2; amount := 250 |} 0%Z 0%Z).
  - apply wf_ledger_of. repeat constructor; cbn; unfold u64_max; lia.
  - cbn. lia.
  - vm_compute. reflexivity.
Defined.

(** C3. Idempotency: for every transaction whose id is already processed and
    whose instruction is a Transfer, CreateAccount or Deposit, the processor
    returns TransactionAlreadyProcessed and the ledger is unchanged. *)
Theorem processed_id_rejected (env : Env) (tx : Transaction) (l : Ledger) :
  tx_id tx ∈ processed_transactions l ->
  (forall g, tx_instruction tx <> GetBalance g) ->
  fst (process_transaction env tx l)
    = (Err TransactionProcessorError.TransactionAlreadyProcessed, l).
Proof.
  intros Hin Hng. unfold process_transaction.
  destruct (tx_instruction tx) as [i|i|i|i].
  - rewrite process_transfer_eq. destruct (decide _); [reflexivity|contradiction].
  - rewrite process_create_account_eq. destruct (decide _); [reflexivity|contradiction].
  - rewrite process_deposit_eq. destruct (decide _); [reflexivity|contradiction].
  - exfalso. by apply (Hng i).
Qed.

Lemma processed_id_rejected_witness :
  fst (process_transaction {| env_fresh := 0; env_now1 := 0%Z; env_now2 := 0%Z |}
         {| tx_id := 11; tx_instruction := Deposit {| dep_destination_account_id := 1; dep_amount := 500 |};
            tx_status := Pending; tx_timestamp := 0%Z |}
         (ledger_of [mk_account 1 500] {[ 11 ]}))
  = (Err TransactionProcessorError.TransactionAlreadyProcessed, ledger_of [mk_account 1 500] {[ 11 ]}).
Proof.
  apply processed_id_rejected.
  - cbn. set_solver.
  - intros g. discriminate.
Defined.

(** C4. Failure semantics: for every Transfer that returns AccountNotFound or
    InsufficientFunds, the ledger is unchanged and the id is not processed;
    and a later submission of the same id succeeds in any ledger where the id
    is still unprocessed, both accounts exist and the source covers the
    amount (e.g. after a deposit provides the funds). *)
Theorem failed_transfer_retriable (l : Ledger) (tid : Uuid) (i : TransferInstruction)
    (now1 now2 : Timestamp) (e : ProcErr) :
  fst (fst (process_transfer tid i now1 now2 l)) = Err e ->
  e = TransactionProcessorError.LedgerError LedgerError.AccountNotFound \/
  e = TransactionProcessorError.InsufficientFunds ->
  snd (fst (process_transfer tid i now1 now2 l)) = l /\
  (tid ∉ processed_transactions l) /\
  (forall (l2 : Ledger) (sa da : Account) (now1' now2' : Timestamp),
    tid ∉ processed_transactions l2 ->
    accounts l2 !! source_account_id i = Some sa ->
    accounts l2 !! destination_account_id i = Some da ->
    amount i <= balance sa ->
    fst (fst (process_transfer tid i now1' now2' l2)) = Ok Success).
Proof.
  intros Herr He.
  rewrite process_transfer_eq in Herr |- *.
  pose proof (transfer_succeeds tid i) as Hrest.
  destruct (decide (tid ∈ processed_transactions l)).
  { cbn in Herr. injection Herr as <-. destruct He; discriminate. }
  destruct (accounts l !! source_account_id i); [|done].
  destruct (accounts l !! destination_account_id i); [|done].
  destruct (decide _); [done|].
  discriminate.
Qed.

Lemma failed_transfer_retriable_witness :
  let l := ledger_of [mk_account 1 100; mk_account 2 0] ∅ in
  let t2 := {| source_account_id := 1; destination_account_id := 2; amount := 500 |} in
  snd (fst (process_transfer 22 t2 0%Z 0%Z l)) = l /\
  (22 ∉ processed_transactions l) /\
  fst (fst (process_transfer 22 t2 0%Z 0%Z
         (snd (fst (process_deposit 33 {| dep_destination_account_id := 1; dep_amount := 1000 |} l)))))
    = Ok Success.
Proof.
  intros l t2.
  destruct (failed_transfer_retriable l 22 t2 0%Z 0%Z TransactionProcessorError.InsufficientFunds)
    as (H1 & H2 & H3).
  - vm_compute. reflexivity.
  - right. reflexivity.
  - split; [exact H1|]. split; [exact H2|].
    apply (H3 _ (set_balance (mk_account 1 100) 1100) (mk_account 2 0)).
    + vm_compute. intros H. discriminate H.
    + vm_compute. reflexivity.
    + vm_compute. reflexivity.
    + cbn. lia.
Defined.

(** C5, counterexample.  The source 1 holds 0 and the transfer asks for 5,
    but the id 9 is already processed: the call returns
    TransactionAlreadyProcessed, not InsufficientFunds. *)
Lemma insufficient_funds_not_first_check :
  fst (fst (process_transfer 9 {| source_account_id := 1; destination_account_id := 2; amount := 5 |}
                             0%Z 0%Z (ledger_of [mk_account 1 0; mk_account 2 0] {[ 9 ]})))
  = Err TransactionProcessorError.TransactionAlreadyProcessed.
Proof. vm_compute. reflexivity. Qed.

(** C5 (amended).  For every Transfer whose source account exists with a
    balance strictly below the amount, the post-state equals the pre-state;
    and the call returns InsufficientFunds whenever the id is not yet
    processed and the destination account exists (the processed-id check and
    the two account lookups come first). *)
Theorem insufficient_funds_unchanged (l : Ledger) (tid : Uuid) (i : TransferInstruction)
    (now1 now2 : Timestamp) (sa : Account) :
  accounts l !! source_account_id i = Some sa ->
  balance sa < amount i ->
  snd (fst (process_transfer tid i now1 now2 l)) = l /\
  (tid ∉ processed_transactions l ->
   is_Some (accounts l !! destination_account_id i) ->
   fst (fst (process_transfer tid i now1 now2 l)) = Err TransactionProcessorError.InsufficientFunds).
Proof.
  intros Hs Hlt. rewrite process_transfer_eq, Hs.
  destruct (decide (tid ∈ processed_transactions l)) as [Hin|Hnin].
  - split; [reflexivity|]. intros Hn. contradiction.
  - destruct (accounts l !! destination_account_id i) as [da|].
    + destruct (decide _); [|lia]. split; reflexivity.
    + split; [reflexivity|]. intros _ [? H]. discriminate.
Qed.

Lemma insufficient_funds_unchanged_witness :
  snd (fst (process_transfer 23 {| source_account_id := 1; destination_account_id := 2; amount := 500 |}
                             0%Z 0%Z (ledger_of [mk_account 1 100; mk_account 2 0] ∅)))
    = ledger_of [mk_account 1 100; mk_account 2 0] ∅ /\
  (23 ∉ processed_transactions (ledger_of [mk_account 1 100; mk_account 2 0] ∅) ->
   is_Some (accounts (ledger_of [mk_account 1 100; mk_account 2 0] ∅) !! 2) ->
   fst (fst (process_transfer 23 {| source_account_id := 1; destination_account_id := 2; amount := 500 |}
                              0%Z 0%Z (ledger_of [mk_account 1 100; mk_account 2 0] ∅)))
   = Err TransactionProcessorError.InsufficientFunds).
Proof.
  apply (insufficient_funds_unchanged (ledger_of [mk_account 1 100; mk_account 2 0] ∅) 23
           {| source_account_id := 1; destination_account_id := 2; amount := 500 |}
           0%Z 0%Z (mk_account 1 100)).
  - vm_compute. reflexivity.
  - cbn. lia.
Defined.

(** C6.  Deposit (its ledger primitive modelled from the spec): for every
    Deposit with an unprocessed id into an existing account holding [b], if
    [b + a <= u64::MAX] it returns Success and the balance becomes exactly
    [b + a]; otherwise it neither saturates nor wraps but fails with the
    InvalidAmount error and leaves the ledger unchanged. *)
Theorem deposit_exact_or_invalid_amount (l : Ledger) (tid : Uuid) (i : DepositInstruction)
    (a : Account) :
  tid ∉ processed_transactions l ->
  accounts l !! dep_destination_account_id i = Some a ->
  (balance a + dep_amount i <= u64_max ->
   fst (fst (process_deposit tid i l)) = Ok Success /\
   fmap balance (accounts (snd (fst (process_deposit tid i l))) !! dep_destination_account_id i)
     = Some (balance a + dep_amount i)) /\
  (u64_max < balance a + dep_amount i ->
   fst (process_deposit tid i l)
     = (Err (TransactionProcessorError.LedgerError LedgerError.InvalidAmount), l)).
Proof.
  intros Hn Ha. rewrite !process_deposit_eq.
  destruct (decide _); [contradiction|]. rewrite Ha.
  split.
  - intros Hle. destruct (decide _); [|lia]. cbn.
    rewrite lookup_insert_eq. split; reflexivity.
  - intros Hgt. destruct (decide _); [lia|reflexivity].
Qed.

Lemma deposit_exact_or_invalid_amount_witness :
  (500 + 500 <= u64_max ->
   fst (fst (process_deposit 31 {| dep_destination_account_id := 1; dep_amount := 500 |}
                             (ledger_of [mk_account 1 500] ∅))) = Ok Success /\
   fmap balance (accounts (snd (fst (process_deposit 31 {| dep_destination_account_id := 1; dep_amount := 500 |}
                                      (ledger_of [mk_account 1 500] ∅)))) !! 1)
     = Some (500 + 500)) /\
  (u64_max < 500 + 500 ->
   fst (process_deposit 31 {| dep_destination_account_id := 1; dep_amount := 500 |}
                        (ledger_of [mk_account 1 500] ∅))
     = (Err (TransactionProcessorError.LedgerError LedgerError.InvalidAmount),
        ledger_of [mk_account 1 500] ∅)).
Proof.
  apply (deposit_exact_or_invalid_amount (ledger_of [mk_account 1 500] ∅) 31
           {| dep_destination_account_id := 1; dep_amount := 500 |} (mk_account 1 500)).
  - cbn. set_solver.
  - vm_compute. reflexivity.
Defined.

Lemma with_lock_trace {E A} (n : LockName) (md : Mode) (m : M E A) (l : Ledger) :
  snd (with_lock n md m l) = Acquire n md :: snd (m l) ++ [Release n md].
Proof. unfold with_lock. by destruct (m l) as [[r l1] w]. Qed.




(** C9, counterexample.  A committed transfer from 1 to 2 acquires no
    per-entry lock of account 1: every lock it takes guards all accounts
    or none. *)
Lemma transfer_takes_no_entry_lock :
  let l := ledger_of [mk_account 1 100; mk_account 2 0] ∅ in
  let i := {| source_account_id := 1; destination_account_id := 2; amount := 5 |} in
  fst (fst (process_transfer 9 i 0%Z 0%Z l)) = Ok Success /\
  ~ exists n md, In (Acquire n md) (snd (process_transfer 9 i 0%Z 0%Z l)) /\ per_entry_lock n 1.
Proof.
  split; [vm_compute; reflexivity|].
  intros (n & md & _ & Hg & Hall).
  specialize (Hall 2). destruct n; cbn in Hg, Hall.
  - specialize (Hall eq_refl). discriminate.
  - specialize (Hall eq_refl). discriminate.
  - discriminate.
Qed.

(** C9 (amended).  Transfers take no per-account locks: [process_transfer]
    holds the ledger-wide exclusive lock for its whole run and inside it
    follows one fixed lock sequence, whatever the two account ids (the
    processed-set read lock, the accounts-map read lock twice, then in
    [commit_transfer] the accounts-map write lock before the processed-set
    write lock), stopping early on an error; every processor operation runs
    inside the ledger-wide lock. *)
Theorem transfer_lock_order (l : Ledger) (tid : Uuid) (i : TransferInstruction)
    (now1 now2 : Timestamp) :
  (exists k, (k = 2 \/ k = 4 \/ k = 6 \/ k = 10)%nat /\
             snd (process_transfer tid i now1 now2 l) = transfer_trace k) /\
  (forall (env : Env) (tx : Transaction),
     exists md w, snd (process_transaction env tx l)
                  = Acquire LedgerLock md :: w ++ [Release LedgerLock md]).
Proof.
  split.
  - rewrite process_transfer_eq.
    destruct (decide _); [exists 2%nat; auto|].
    destruct (accounts l !! source_account_id i); [|exists 4%nat; auto].
    destruct (accounts l !! destination_account_id i); [|exists 6%nat; auto].
    destruct (decide _); [exists 6%nat; auto|exists 10%nat; auto].
  - intros env tx. unfold process_transaction.
    destruct (tx_instruction tx);
      [unfold process_transfer|unfold process_create_account|unfold process_deposit|unfold get_balance];
      eexists _, _; apply with_lock_trace.
Qed.

(** C10.  [commit_transfer] validates neither balances nor amount: for every
    ledger and every pair of account copies, when the id is not processed it
    returns the two copies with the transfer record appended, stores the
    destination copy under its uuid and the source copy under its own
    (unless the two uuids coincide, the destination being written last),
    leaves every other entry as it was, and adds the id to the processed set. *)
Theorem commit_transfer_unchecked (l : Ledger) (tid : Uuid) (i : TransferInstruction)
    (sa da : Account) (now1 now2 : Timestamp) :
  tid ∉ processed_transactions l ->
  let r := commit_transfer tid i sa da now1 now2 l in
  fst (fst r) = Ok (push_history sa (hist tid i now1), push_history da (hist tid i now2)) /\
  accounts (snd (fst r)) !! uuid da = Some (push_history da (hist tid i now2)) /\
  (uuid sa <> uuid da -> accounts (snd (fst r)) !! uuid sa = Some (push_history sa (hist tid i now1))) /\
  (forall k, k <> uuid sa -> k <> uuid da -> accounts (snd (fst r)) !! k = accounts l !! k) /\
  processed_transactions (snd (fst r)) = {[ tid ]} ∪ processed_transactions l.
Proof.
  intros Hn r. subst r. rewrite commit_transfer_eq.
  destruct (decide (tid ∈ processed_transactions l)); [contradiction|]. cbn.
  split; [reflexivity|]. split; [by rewrite lookup_insert_eq|].
  split; [intros Hne; rewrite lookup_insert_ne by done; by rewrite lookup_insert_eq|].
  split; [|reflexivity].
  intros k H1 H2. rewrite !lookup_insert_ne by done. reflexivity.
Qed.

Lemma commit_transfer_unchecked_witness :
  let r := commit_transfer 9 {| source_account_id := 1; destination_account_id := 2; amount := 700 |}
             (mk_account 1 5) (mk_account 2 3) 0%Z 0%Z
             (ledger_of [mk_account 1 100; mk_account 2 0; mk_account 3 1] ∅) in
  fst (fst r) = Ok (push_history (mk_account 1 5) (hist 9 {| source_account_id := 1; destination_account_id := 2; amount := 700 |} 0%Z),
                    push_history (mk_account 2 3) (hist 9 {| source_account_id := 1; destination_account_id := 2; amount := 700 |} 0%Z)) /\
  accounts (snd (fst r)) !! uuid (mk_account 2 3)
    = Some (push_history (mk_account 2 3) (hist 9 {| source_account_id := 1; destination_account_id := 2; amount := 700 |} 0%Z)) /\
  (uuid (mk_account 1 5) <> uuid (mk_account 2 3) ->
   accounts (snd (fst r)) !! uuid (mk_account 1 5)
     = Some (push_history (mk_account 1 5) (hist 9 {| source_account_id := 1; destination_account_id := 2; amount := 700 |} 0%Z))) /\
  (forall k, k <> uuid (mk_account 1 5) -> k <> uuid (mk_account 2 3) ->
   accounts (snd (fst r)) !! k
     = accounts (ledger_of [mk_account 1 100; mk_account 2 0; mk_account 3 1] ∅) !! k) /\
  processed_transactions (snd (fst r))
    = {[ 9 ]} ∪ processed_transactions (ledger_of [mk_account 1 100; mk_account 2 0; mk_account 3 1] ∅).
Proof.
  apply (commit_transfer_unchecked (ledger_of [mk_account 1 100; mk_account 2 0; mk_account 3 1] ∅) 9
           {| source_account_id := 1; destination_account_id := 2; amount := 700 |}
           (mk_account 1 5) (mk_account 2 3) 0%Z 0%Z).
  cbn. set_solver.
Defined.

(** ** Further properties of the ledger and the processor *)

Lemma get_account_eq (l : Ledger) (id : Uuid) :
  get_account id l =
  (match accounts l !! id with Some a => Ok a | None => Err LedgerError.AccountNotFound end, l,
   [Acquire AccountsLock Read; Release AccountsLock Read]).
Proof. run_monad. destruct (accounts l !! id); reflexivity. Qed.

Lemma create_account_eq (l : Ledger) (fresh : Uuid) (ks : list Key) :
  create_account fresh ks l =
  (Ok fresh, {| accounts := <[fresh := snd (Account_new fresh ks)]> (accounts l);
                processed_transactions := processed_transactions l |},
   [Acquire AccountsLock Write; Release AccountsLock Write]).
Proof. run_monad. reflexivity. Qed.

Lemma is_transaction_processed_eq (l : Ledger) (t : Uuid) :
  is_transaction_processed t l =
  (Ok (bool_decide (t ∈ processed_transactions l)), l,
   [Acquire ProcessedLock Read; Release ProcessedLock Read]).
Proof. run_monad. reflexivity. Qed.

Lemma mark_transaction_processed_eq (l : Ledger) (t : Uuid) :
  mark_transaction_processed t l =
  (Ok tt, {| accounts := accounts l;
             processed_transactions := {[ t ]} ∪ processed_transactions l |},
   [Acquire ProcessedLock Write; Release ProcessedLock Write]).
Proof. run_monad. reflexivity. Qed.

Lemma get_balance_eq (l : Ledger) (id : Uuid) :
  fst (get_balance id l) =
  (match accounts l !! id with
   | Some a => Ok (Balance (balance a))
   | None => Err (TransactionProcessorError.LedgerError LedgerError.AccountNotFound)
   end, l).
Proof. run_monad. destruct (accounts l !! id); reflexivity. Qed.

Lemma total_balance_insert (m : gmap Uuid Account) (k : Uuid) (old new : Account) :
  m !! k = Some old ->
  map_fold (fun _ a s => balance a + s) 0 (<[k := new]> m) + balance old
  = map_fold (fun _ a s => balance a + s) 0 m + balance new.
Proof.
  intros Hk.
  rewrite (map_fold_delete_L (fun _ a s => balance a + s) 0 k old m) by (intros; lia || exact Hk).
  rewrite <- insert_delete_eq.
  rewrite map_fold_insert_L by (intros; lia || apply lookup_delete_eq).
  lia.
Qed.

(** X1.  [create_account] then [get_account]: the new id is returned, the
    account read back under it has balance 0, the given keys and an empty
    history, every other id reads as before, and [get_account] (a hit or an
    AccountNotFound) leaves the ledger as it was. *)
Theorem create_account_then_get_account (l : Ledger) (fresh k : Uuid) (ks : list Key) :
  fst (fst (create_account fresh ks l)) = Ok fresh /\
  fst (fst (get_account fresh (snd (fst (create_account fresh ks l)))))
    = Ok {| uuid := fresh; balance := 0; keys := ks; transaction_history := [] |} /\
  (k <> fresh ->
   fst (fst (get_account k (snd (fst (create_account fresh ks l))))) = fst (fst (get_account k l))) /\
  snd (fst (get_account k l)) = l.
Proof.
  rewrite !create_account_eq, !get_account_eq. cbn.
  split; [reflexivity|]. split; [by rewrite lookup_insert_eq|].
  split; [|reflexivity]. intros Hk. by rewrite lookup_insert_ne by congruence.
Qed.

(** X2.  [mark_transaction_processed] then [is_transaction_processed]: the
    marked id reads as processed, every other id reads as before, the
    accounts are untouched, and marking the same id again changes nothing. *)
Theorem mark_then_is_processed (l : Ledger) (t t' : Uuid) :
  fst (fst (is_transaction_processed t (snd (fst (mark_transaction_processed t l))))) = Ok true /\
  (t' <> t ->
   fst (fst (is_transaction_processed t' (snd (fst (mark_transaction_processed t l)))))
   = fst (fst (is_transaction_processed t' l))) /\
  accounts (snd (fst (mark_transaction_processed t l))) = accounts l /\
  snd (fst (mark_transaction_processed t (snd (fst (mark_transaction_processed t l)))))
    = snd (fst (mark_transaction_processed t l)).
Proof.
  rewrite !mark_transaction_processed_eq, !is_transaction_processed_eq. cbn.
  split; [f_equal; apply bool_decide_eq_true_2; set_solver|].
  split; [intros Hne; f_equal; apply bool_decide_ext; set_solver|].
  split; [reflexivity|]. f_equal. apply leibniz_equiv. set_solver.
Qed.

(** X5.  A CreateAccount with an unprocessed id returns AccountCreated with
    the drawn uuid, stores under it an account with balance 0, the
    instruction's keys and an empty history (replacing any account stored
    there), leaves every other account as it was, marks the id processed,
    and a balance query of the new id then returns 0. *)
Theorem create_account_opens_empty_account (env : Env) (tx : Transaction) (l : Ledger)
    (c : CreateAccountInstruction) :
  tx_instruction tx = CreateAccount c ->
  tx_id tx ∉ processed_transactions l ->
  fst (fst (process_transaction env tx l)) = Ok (AccountCreated (env_fresh env)) /\
  accounts (snd (fst (process_transaction env tx l))) !! env_fresh env
    = Some {| uuid := env_fresh env; balance := 0; keys := ca_keys c; transaction_history := [] |} /\
  (forall k, k <> env_fresh env ->
   accounts (snd (fst (process_transaction env tx l))) !! k = accounts l !! k) /\
  processed_transactions (snd (fst (process_transaction env tx l)))
    = {[ tx_id tx ]} ∪ processed_transactions l /\
  fst (fst (get_balance (env_fresh env) (snd (fst (process_transaction env tx l))))) = Ok (Balance 0).
Proof.
  intros Hc Hn. unfold process_transaction. rewrite Hc.
  pose proof (process_create_account_eq l (tx_id tx) c (env_fresh env)) as E.
  destruct (process_create_account _ _ _ l) as [[r l'] w]. cbn in E |- *.
  destruct (decide _); [contradiction|]. injection E as -> ->.
  rewrite get_balance_eq. cbn. rewrite lookup_insert_eq.
  split; [reflexivity|]. split; [reflexivity|]. split; [|split; reflexivity].
  intros k Hk. rewrite lookup_insert_ne by congruence. reflexivity.
Qed.

Lemma create_account_opens_empty_account_witness :
  let env := {| env_fresh := 42; env_now1 := 0%Z; env_now2 := 0%Z |} in
  let tx := {| tx_id := 3; tx_instruction := CreateAccount {| ca_keys := [Email "a@b.c"] |};
               tx_status := Pending; tx_timestamp := 0%Z |} in
  let l := ledger_of [mk_account 1 100] ∅ in
  fst (fst (process_transaction env tx l)) = Ok (AccountCreated 42) /\
  accounts (snd (fst (process_transaction env tx l))) !! 42
    = Some {| uuid := 42; balance := 0; keys := [Email "a@b.c"]; transaction_history := [] |} /\
  (forall k, k <> 42 -> accounts (snd (fst (process_transaction env tx l))) !! k = accounts l !! k) /\
  processed_transactions (snd (fst (process_transaction env tx l))) = {[ 3 ]} ∪ processed_transactions l /\
  fst (fst (get_balance 42 (snd (fst (process_transaction env tx l))))) = Ok (Balance 0).
Proof.
  intros env tx l.
  apply (create_account_opens_empty_account env tx l {| ca_keys := [Email "a@b.c"] |}).
  - reflexivity.
  - cbn. set_solver.
Defined.

(** X6.  The gRPC handlers never answer [Status::internal("Unexpected
    processor result")]: whatever the transaction and the ledger, the
    processor's [Ok] result is the variant the handler of that instruction
    expects (AccountCreated for CreateAccount, Success for Transfer and
    Deposit, Balance for GetBalance). *)
Theorem grpc_reply_never_internal (env : Env) (tx : Transaction) (l : Ledger) :
  grpc_reply (tx_instruction tx) (fst (fst (process_transaction env tx l))) <> InternalStatus.
Proof.
  unfold process_transaction. destruct (tx_instruction tx) as [i|i|i|i].
  - rewrite process_transfer_eq.
    destruct (decide _); [cbn; congruence|].
    destruct (accounts l !! source_account_id i); [|cbn; congruence].
    destruct (accounts l !! destination_account_id i); [|cbn; congruence].
    destruct (decide _); cbn; congruence.
  - rewrite process_create_account_eq. destruct (decide _); cbn; congruence.
  - rewrite process_deposit_eq. destruct (decide _); [cbn; congruence|].
    destruct (accounts l !! dep_destination_account_id i); [|cbn; congruence].
    destruct (decide _); cbn; congruence.
  - rewrite get_balance_eq. destruct (accounts l !! gb_account_id i); cbn; congruence.
Qed.

(** X7.  Outside deposits, the processed-id set only grows, and by the
    transaction's own id at most: no operation ever unmarks an id or marks
    another one. *)
Theorem processed_grows_by_own_id (env : Env) (tx : Transaction) (l : Ledger) :
  (forall d, tx_instruction tx <> Deposit d) ->
  processed_transactions l ⊆ processed_transactions (snd (fst (process_transaction env tx l))) /\
  processed_transactions (snd (fst (process_transaction env tx l)))
    ⊆ {[ tx_id tx ]} ∪ processed_transactions l.
Proof.
  intros Hnd. unfold process_transaction. destruct (tx_instruction tx) as [i|i|i|i].
  - rewrite process_transfer_eq.
    destruct (decide _); [cbn; set_solver|].
    destruct (accounts l !! source_account_id i); [|cbn; set_solver].
    destruct (accounts l !! destination_account_id i); [|cbn; set_solver].
    destruct (decide _); cbn; set_solver.
  - rewrite process_create_account_eq. destruct (decide _); cbn; set_solver.
  - exfalso. by apply (Hnd i).
  - rewrite get_balance_state. set_solver.
Qed.

Lemma processed_grows_by_own_id_witness :
  let env := {| env_fresh := 0; env_now1 := 0%Z; env_now2 := 0%Z |} in
  let tx := {| tx_id := 4; tx_instruction :=
                 Transfer {| source_account_id := 1; destination_account_id := 2; amount := 5 |};
               tx_status := Pending; tx_timestamp := 0%Z |} in
  let l := ledger_of [mk_account 1 100; mk_account 2 0] {[ 1 ]} in
  processed_transactions l ⊆ processed_transactions (snd (fst (process_transaction env tx l))) /\
  processed_transactions (snd (fst (process_transaction env tx l))) ⊆ {[ 4 ]} ∪ processed_transactions l.
Proof.
  intros env tx l. apply (processed_grows_by_own_id env tx l).
  intros d. discriminate.
Defined.

(** X8.  In a reachable ledger, and outside deposits, no operation removes
    an account, and the only id that can be added is the uuid drawn for a
    new account. *)
Theorem accounts_never_removed (env : Env) (tx : Transaction) (l : Ledger) :
  wf l ->
  (forall d, tx_instruction tx <> Deposit d) ->
  dom (accounts l) ⊆ dom (accounts (snd (fst (process_transaction env tx l)))) /\
  dom (accounts (snd (fst (process_transaction env tx l)))) ⊆ {[ env_fresh env ]} ∪ dom (accounts l).
Proof.
  intros Hwf Hnd. unfold process_transaction. destruct (tx_instruction tx) as [i|i|i|i].
  - rewrite process_transfer_eq.
    destruct (decide _); [cbn; set_solver|].
    destruct (accounts l !! source_account_id i) as [sa|] eqn:Hs; [|cbn; set_solver].
    destruct (accounts l !! destination_account_id i) as [da|] eqn:Hd; [|cbn; set_solver].
    destruct (decide _); [cbn; set_solver|]. cbn.
    pose proof (Hwf _ _ Hs) as [Hus _]. pose proof (Hwf _ _ Hd) as [Hud _].
    assert (uuid sa ∈ dom (accounts l)) by (apply elem_of_dom; rewrite Hus, Hs; eauto).
    assert (uuid da ∈ dom (accounts l)) by (apply elem_of_dom; rewrite Hud, Hd; eauto).
    rewrite !dom_insert_L. set_solver.
  - rewrite process_create_account_eq. destruct (decide _); cbn; [set_solver|].
    rewrite dom_insert_L. set_solver.
  - exfalso. by apply (Hnd i).
  - rewrite get_balance_state. set_solver.
Qed.

Lemma accounts_never_removed_witness :
  let env := {| env_fresh := 42; env_now1 := 0%Z; env_now2 := 0%Z |} in
  let tx := {| tx_id := 4; tx_instruction :=
                 Transfer {| source_account_id := 1; destination_account_id := 2; amount := 5 |};
               tx_status := Pending; tx_timestamp := 0%Z |} in
  let l := ledger_of [mk_account 1 100; mk_account 2 0] ∅ in
  dom (accounts l) ⊆ dom (accounts (snd (fst (process_transaction env tx l)))) /\
  dom (accounts (snd (fst (process_transaction env tx l)))) ⊆ {[ 42 ]} ∪ dom (accounts l).
Proof.
  intros env tx l. apply (accounts_never_removed env tx l).
  - apply wf_ledger_of. repeat constructor; cbn; unfold u64_max; lia.
  - intros d. discriminate.
Defined.

(** X9.  Outside deposits, an operation that returns an error leaves the
    whole ledger (accounts and processed ids) as it was. *)
Theorem failed_operation_unchanged (env : Env) (tx : Transaction) (l : Ledger) (e : ProcErr) :
  (forall d, tx_instruction tx <> Deposit d) ->
  fst (fst (process_transaction env tx l)) = Err e ->
  snd (fst (process_transaction env tx l)) = l.
Proof.
  intros Hnd. unfold process_transaction. destruct (tx_instruction tx) as [i|i|i|i].
  - rewrite process_transfer_eq.
    destruct (decide _); [done|].
    destruct (accounts l !! source_account_id i); [|done].
    destruct (accounts l !! destination_account_id i); [|done].
    destruct (decide _); [done|]. cbn. discriminate.
  - rewrite process_create_account_eq. destruct (decide _); cbn; [done|discriminate].
  - exfalso. by apply (Hnd i).
  - intros _. apply get_balance_state.
Qed.

Lemma failed_operation_unchanged_witness :
  let env := {| env_fresh := 0; env_now1 := 0%Z; env_now2 := 0%Z |} in
  let tx := {| tx_id := 4; tx_instruction :=
                 Transfer {| source_account_id := 1; destination_account_id := 3; amount := 5 |};
               tx_status := Pending; tx_timestamp := 0%Z |} in
  let l := ledger_of [mk_account 1 100; mk_account 2 0] ∅ in
  snd (fst (process_transaction env tx l)) = l.
Proof.
  intros env tx l.
  apply (failed_operation_unchanged env tx l
           (TransactionProcessorError.LedgerError LedgerError.AccountNotFound)).
  - intros d. discriminate.
  - vm_compute. reflexivity.
Defined.

(** X10.  A Transfer or CreateAccount that succeeded is not applied twice:
    submitting the same transaction again to the resulting ledger, at any
    time and with any fresh uuid, returns TransactionAlreadyProcessed and
    changes nothing. *)
Theorem resubmission_rejected (env env' : Env) (tx : Transaction) (l : Ledger)
    (r : TransactionResult) :
  (forall d, tx_instruction tx <> Deposit d) ->
  (forall g, tx_instruction tx <> GetBalance g) ->
  fst (fst (process_transaction env tx l)) = Ok r ->
  fst (process_transaction env' tx (snd (fst (process_transaction env tx l))))
    = (Err TransactionProcessorError.TransactionAlreadyProcessed,
       snd (fst (process_transaction env tx l))).
Proof.
  intros Hnd Hng Hok.
  assert (Hin : tx_id tx ∈ processed_transactions (snd (fst (process_transaction env tx l)))).
  { revert Hok. unfold process_transaction. destruct (tx_instruction tx) as [i|i|i|i].
    - rewrite process_transfer_eq.
      destruct (decide _); [discriminate|].
      destruct (accounts l !! source_account_id i); [|discriminate].
      destruct (accounts l !! destination_account_id i); [|discriminate].
      destruct (decide _); [discriminate|]. intros _. cbn. set_solver.
    - rewrite process_create_account_eq. destruct (decide _); cbn; [discriminate|].
      intros _. set_solver.
    - exfalso. by apply (Hnd i).
    - exfalso. by apply (Hng i). }
  revert Hin. generalize (snd (fst (process_transaction env tx l))). intros l' Hin.
  unfold process_transaction. destruct (tx_instruction tx) as [i|i|i|i].
  - rewrite process_transfer_eq.
    destruct (decide (tx_id tx ∈ processed_transactions l')); [reflexivity|contradiction].
  - rewrite process_create_account_eq.
    destruct (decide (tx_id tx ∈ processed_transactions l')); [reflexivity|contradiction].
  - exfalso. by apply (Hnd i).
  - exfalso. by apply (Hng i).
Qed.

Lemma resubmission_rejected_witness :
  let env := {| env_fresh := 0; env_now1 := 0%Z; env_now2 := 0%Z |} in
  let env' := {| env_fresh := 8; env_now1 := 5%Z; env_now2 := 6%Z |} in
  let tx := {| tx_id := 4; tx_instruction :=
                 Transfer {| source_account_id := 1; destination_account_id := 2; amount := 5 |};
               tx_status := Pending; tx_timestamp := 0%Z |} in
  let l := ledger_of [mk_account 1 100; mk_account 2 0] ∅ in
  fst (process_transaction env' tx (snd (fst (process_transaction env tx l))))
    = (Err TransactionProcessorError.TransactionAlreadyProcessed,
       snd (fst (process_transaction env tx l))).
Proof.
  intros env env' tx l. apply (resubmission_rejected env env' tx l Success).
  - intros d. discriminate.
  - intros g. discriminate.
  - vm_compute. reflexivity.
Defined.

(** X11.  A successful Transfer between two distinct accounts of a
    reachable ledger appends exactly one record to each account's history
    (the source's stamped with the first clock reading, the destination's
    with the second), keeps both accounts' keys, and leaves every other
    account as it was. *)
Theorem transfer_appends_history (l : Ledger) (tid : Uuid) (i : TransferInstruction)
    (now1 now2 : Timestamp) (sa da : Account) :
  wf l ->
  source_account_id i <> destination_account_id i ->
  accounts l !! source_account_id i = Some sa ->
  accounts l !! destination_account_id i = Some da ->
  fst (fst (process_transfer tid i now1 now2 l)) = Ok Success ->
  fmap transaction_history (accounts (snd (fst (process_transfer tid i now1 now2 l))) !! source_account_id i)
    = Some (transaction_history sa ++ [hist tid i now1]) /\
  fmap transaction_history (accounts (snd (fst (process_transfer tid i now1 now2 l))) !! destination_account_id i)
    = Some (transaction_history da ++ [hist tid i now2]) /\
  fmap keys (accounts (snd (fst (process_transfer tid i now1 now2 l))) !! source_account_id i) = Some (keys sa) /\
  fmap keys (accounts (snd (fst (process_transfer tid i now1 now2 l))) !! destination_account_id i) = Some (keys da) /\
  (forall k, k <> source_account_id i -> k <> destination_account_id i ->
   accounts (snd (fst (process_transfer tid i now1 now2 l))) !! k = accounts l !! k).
Proof.
  intros Hwf Hne Hs Hd Hok.
  rewrite process_transfer_eq in Hok |- *. rewrite Hs, Hd in Hok |- *.
  destruct (decide _); [discriminate|].
  destruct (decide _); [discriminate|]. cbn.
  pose proof (Hwf _ _ Hs) as [Hus _]. pose proof (Hwf _ _ Hd) as [Hud _].
  rewrite Hus, Hud.
  rewrite (lookup_insert_ne _ (destination_account_id i) (source_account_id i)) by congruence.
  rewrite !lookup_insert_eq. cbn.
  split; [reflexivity|]. split; [reflexivity|]. split; [reflexivity|]. split; [reflexivity|].
  intros k H1 H2. rewrite !lookup_insert_ne by congruence. reflexivity.
Qed.

Lemma transfer_appends_history_witness :
  let l := ledger_of [mk_account 1 100; mk_account 2 0; mk_account 3 7] ∅ in
  let i := {| source_account_id := 1; destination_account_id := 2; amount := 30 |} in
  fmap transaction_history (accounts (snd (fst (process_transfer 4 i 1%Z 2%Z l))) !! 1)
    = Some (transaction_history (mk_account 1 100) ++ [hist 4 i 1%Z]) /\
  fmap transaction_history (accounts (snd (fst (process_transfer 4 i 1%Z 2%Z l))) !! 2)
    = Some (transaction_history (mk_account 2 0) ++ [hist 4 i 2%Z]) /\
  fmap keys (accounts (snd (fst (process_transfer 4 i 1%Z 2%Z l))) !! 1) = Some (keys (mk_account 1 100)) /\
  fmap keys (accounts (snd (fst (process_transfer 4 i 1%Z 2%Z l))) !! 2) = Some (keys (mk_account 2 0)) /\
  (forall k, k <> 1 -> k <> 2 -> accounts (snd (fst (process_transfer 4 i 1%Z 2%Z l))) !! k = accounts l !! k).
Proof.
  intros l i. apply (transfer_appends_history l 4 i 1%Z 2%Z (mk_account 1 100) (mk_account 2 0)).
  - apply wf_ledger_of. repeat constructor; cbn; unfold u64_max; lia.
  - cbn. lia.
  - reflexivity.
  - reflexivity.
  - vm_compute. reflexivity.
Defined.

(** X12.  Every processor operation but Deposit keeps a reachable ledger
    reachable: each account stays stored under its own uuid with a balance
    that fits a [u64]. *)
Theorem operations_preserve_wf (l : Ledger) (tid : Uuid) (i : TransferInstruction)
    (c : CreateAccountInstruction) (fresh id : Uuid) (now1 now2 : Timestamp) :
  wf l ->
  wf (snd (fst (process_transfer tid i now1 now2 l))) /\
  wf (snd (fst (process_create_account tid c fresh l))) /\
  wf (snd (fst (get_balance id l))).
Proof.
  intros Hwf. split; [|split].
  - exact (wf_process_transaction {| env_fresh := fresh; env_now1 := now1; env_now2 := now2 |}
             {| tx_id := tid; tx_instruction := Transfer i; tx_status := Pending; tx_timestamp := 0%Z |}
             l Hwf).
  - exact (wf_process_transaction {| env_fresh := fresh; env_now1 := now1; env_now2 := now2 |}
             {| tx_id := tid; tx_instruction := CreateAccount c; tx_status := Pending; tx_timestamp := 0%Z |}
             l Hwf).
  - by rewrite get_balance_state.
Qed.

Lemma operations_preserve_wf_witness :
  let l := ledger_of [mk_account 1 100; mk_account 2 u64_max] ∅ in
  wf (snd (fst (process_transfer 4 {| source_account_id := 1; destination_account_id := 2; amount := 30 |}
                                 0%Z 0%Z l))) /\
  wf (snd (fst (process_create_account 5 {| ca_keys := [] |} 9 l))) /\
  wf (snd (fst (get_balance 1 l))).
Proof.
  intros l. apply (operations_preserve_wf l 4
    {| source_account_id := 1; destination_account_id := 2; amount := 30 |} {| ca_keys := [] |} 9 1 0%Z 0%Z).
  apply wf_ledger_of. repeat constructor; cbn; unfold u64_max; lia.
Defined.

(** X13.  A successful Transfer between two distinct accounts of a
    reachable ledger never increases the total of all balances; the total
    is unchanged when the destination's new balance fits a [u64] (otherwise
    the saturated excess is lost). *)
Theorem transfer_total_balance (l : Ledger) (tid : Uuid) (i : TransferInstruction)
    (now1 now2 : Timestamp) :
  wf l ->
  source_account_id i <> destination_account_id i ->
  fst (fst (process_transfer tid i now1 now2 l)) = Ok Success ->
  total_balance (snd (fst (process_transfer tid i now1 now2 l))) <= total_balance l /\
  ((forall da, accounts l !! destination_account_id i = Some da -> balance da + amount i <= u64_max) ->
   total_balance (snd (fst (process_transfer tid i now1 now2 l))) = total_balance l).
Proof.
  intros Hwf Hne Hok.
  rewrite process_transfer_eq in Hok |- *.
  destruct (decide _); [discriminate|].
  destruct (accounts l !! source_account_id i) as [sa|] eqn:Hs; [|discriminate].
  destruct (accounts l !! destination_account_id i) as [da|] eqn:Hd; [|discriminate].
  destruct (decide _) as [|Hge]; [discriminate|].
  pose proof (Hwf _ _ Hs) as [Hus _]. pose proof (Hwf _ _ Hd) as [Hud _].
  unfold total_balance, transfer_commit. cbn [fst snd accounts].
  set (sa' := push_history (set_balance sa (saturating_sub (balance sa) (amount i))) (hist tid i now1)).
  set (da' := push_history (set_balance da (saturating_add (balance da) (amount i))) (hist tid i now2)).
  assert (H1 : <[uuid sa := sa']> (accounts l) !! uuid da = Some da).
  { rewrite lookup_insert_ne by congruence. by rewrite Hud. }
  pose proof (total_balance_insert _ _ _ da' H1) as E1.
  assert (H2 : accounts l !! uuid sa = Some sa) by (by rewrite Hus).
  pose proof (total_balance_insert _ _ _ sa' H2) as E2.
  assert (Bs : balance sa' = balance sa - amount i) by reflexivity.
  assert (Bd : balance da' = N.min (balance da + amount i) u64_max) by reflexivity.
  destruct (N.min_spec (balance da + amount i) u64_max) as [[Hm Hmin]|[Hm Hmin]];
    rewrite Hmin in Bd; (split; [lia|]);
    intros Hfit; specialize (Hfit da eq_refl); lia.
Qed.

Lemma transfer_total_balance_witness :
  let l := ledger_of [mk_account 1 100; mk_account 2 0; mk_account 3 7] ∅ in
  let i := {| source_account_id := 1; destination_account_id := 2; amount := 30 |} in
  total_balance (snd (fst (process_transfer 4 i 0%Z 0%Z l))) <= total_balance l /\
  ((forall da, accounts l !! 2 = Some da -> balance da + 30 <= u64_max) ->
   total_balance (snd (fst (process_transfer 4 i 0%Z 0%Z l))) = total_balance l).
Proof.
  intros l i. apply (transfer_total_balance l 4 i 0%Z 0%Z).
  - apply wf_ledger_of. repeat constructor; cbn; unfold u64_max; lia.
  - cbn. lia.
  - vm_compute. reflexivity.
Defined.

(** X14.  Opening an account with an unprocessed id keeps the total of all
    balances when the drawn uuid is new; when it is already taken, the
    account stored there is replaced by an empty one and its balance drops
    out of the total. *)
Theorem create_account_total_balance (l : Ledger) (tid : Uuid) (c : CreateAccountInstruction)
    (fresh : Uuid) :
  tid ∉ processed_transactions l ->
  (accounts l !! fresh = None ->
   total_balance (snd (fst (process_create_account tid c fresh l))) = total_balance l) /\
  (forall a, accounts l !! fresh = Some a ->
   total_balance (snd (fst (process_create_account tid c fresh l))) + balance a = total_balance l).
Proof.
  intros Hn. rewrite process_create_account_eq.
  destruct (decide (tid ∈ processed_transactions l)); [contradiction|].
  unfold total_balance. cbn [snd accounts]. split.
  - intros Hf. rewrite map_fold_insert_L by (intros; lia || exact Hf). cbn. lia.
  - intros a Ha. rewrite (total_balance_insert _ _ a _ Ha). cbn. lia.
Qed.

Lemma create_account_total_balance_witness :
  let l := ledger_of [mk_account 1 100; mk_account 2 5] ∅ in
  (accounts l !! 9 = None ->
   total_balance (snd (fst (process_create_account 4 {| ca_keys := [] |} 9 l))) = total_balance l) /\
  (forall a, accounts l !! 9 = Some a ->
   total_balance (snd (fst (process_create_account 4 {| ca_keys := [] |} 9 l))) + balance a = total_balance l).
Proof.
  intros l. apply (create_account_total_balance l 4 {| ca_keys := [] |} 9).
  cbn. set_solver.
Defined.

Module PersistenceFacts.
Import Persistence.

Lemma digit_value_pretty_N_char (d : N) : d < 10 -> digit_value (pretty_N_char d) = Some d.
Proof.
  intros Hd.
  assert (d = 0 \/ d = 1 \/ d = 2 \/ d = 3 \/ d = 4 \/ d = 5 \/ d = 6 \/ d = 7 \/ d = 8 \/ d = 9)
    as H by lia.
  repeat destruct H as [->|H]; try reflexivity. subst. reflexivity.
Qed.

Lemma parse_digits_pretty_N_go (x : N) :
  forall acc s, exists k, parse_digits acc (pretty_N_go x s) = parse_digits (acc * 10 ^ k + x) s.
Proof.
  induction (N.lt_wf_0 x) as [x _ IH]. intros acc s.
  destruct (decide (x = 0)) as [->|Hx].
  - exists 0. rewrite pretty_N_go_0. f_equal. lia.
  - rewrite pretty_N_go_step by lia.
    destruct (IH (x `div` 10) ltac:(apply N.div_lt; lia) acc
                 (String (pretty_N_char (x `mod` 10)) s)) as [k Hk].
    exists (N.succ k). rewrite Hk. cbn.
    rewrite digit_value_pretty_N_char by (apply N.mod_lt; lia).
    f_equal. rewrite N.pow_succ_r'.
    pose proof (N.div_mod x 10 ltac:(lia)). lia.
Qed.

(** [u64::to_string] is read back by [parse_decimal]. *)
Lemma parse_decimal_pretty (n : N) : parse_decimal (pretty n) = Some n.
Proof.
  unfold pretty, pretty_N. destruct (decide (n = 0)) as [->|Hn]; [reflexivity|].
  destruct (parse_digits_pretty_N_go n 0 "") as [k Hk].
  replace (0 * 10 ^ k + n) with n in Hk by lia.
  destruct (pretty_N_go n "") as [|c s] eqn:E.
  - cbn in Hk. injection Hk as Hk. lia.
  - exact Hk.
Qed.

Lemma integer_affinity_pretty_large (b : N) :
  (i64_max < Z.of_N b)%Z -> integer_affinity (pretty b) = SqlReal (pretty b).
Proof.
  intros Hb. unfold integer_affinity. rewrite parse_decimal_pretty.
  destruct (decide _); [lia|reflexivity].
Qed.

(** C7.  Snapshot round trip, at a failing input: a snapshot holding one
    account whose u64 balance exceeds [i64::MAX] is saved, the balance being
    bound as text into the INTEGER column and so stored as a REAL; loading
    that file fails with InvalidColumnType on the balance column instead of
    returning the snapshot. *)
Theorem snapshot_roundtrip_fails_above_i64
    (uuid_c : Codec Uuid) (keys_c : Codec (list Key)) (history_c : Codec (list Uuid))
    (instruction_c : Codec Instruction) (status_c : Codec TransactionStatus)
    (rfc3339_c : Codec Timestamp) (u : Uuid) (b : N) (ks : list Key) (h : list Uuid) :
  decode uuid_c (encode uuid_c u) = Some u ->
  (i64_max < Z.of_N b)%Z -> b <= u64_max ->
  let s := {| s_accounts := {[ u := {| p_uuid := u; p_balance := b; p_keys := ks;
                                        p_transaction_history := h |} ]};
              s_transactions := ∅; s_processed := ∅ |} in
  exists db,
    save_state uuid_c keys_c history_c instruction_c status_c rfc3339_c s = Ok db /\
    load_state uuid_c keys_c history_c instruction_c status_c rfc3339_c db
      = Err (SqlErr (InvalidColumnType 1)).
Proof.
  intros Hu Hb _ s.
  unfold save_state. cbn [s_accounts s_transactions s_processed s].
  rewrite map_to_list_singleton, map_to_list_empty, elements_empty. cbn.
  eexists. split; [reflexivity|].
  unfold load_state, load_account_row. cbn.
  rewrite Hu, integer_affinity_pretty_large by exact Hb. reflexivity.
Qed.

Lemma snapshot_roundtrip_fails_above_i64_witness :
  exists db,
    save_state {| encode := pretty; decode := parse_decimal |}
               {| encode := fun _ => "[]"%string; decode := fun _ => Some [] |}
               {| encode := fun _ => "[]"%string; decode := fun _ => Some [] |}
               {| encode := fun _ => ""%string; decode := fun _ => None |}
               {| encode := fun _ => ""%string; decode := fun _ => None |}
               {| encode := fun _ => ""%string; decode := fun _ => None |}
               {| s_accounts := {[ 7 := {| p_uuid := 7; p_balance := 2 ^ 63; p_keys := [];
                                            p_transaction_history := [] |} ]};
                  s_transactions := ∅; s_processed := ∅ |} = Ok db /\
    load_state {| encode := pretty; decode := parse_decimal |}
               {| encode := fun _ => "[]"%string; decode := fun _ => Some [] |}
               {| encode := fun _ => "[]"%string; decode := fun _ => Some [] |}
               {| encode := fun _ => ""%string; decode := fun _ => None |}
               {| encode := fun _ => ""%string; decode := fun _ => None |}
               {| encode := fun _ => ""%string; decode := fun _ => None |} db
      = Err (SqlErr (InvalidColumnType 1)).
Proof.
  apply (snapshot_roundtrip_fails_above_i64
           {| encode := pretty; decode := parse_decimal |}
           {| encode := fun _ => "[]"%string; decode := fun _ => Some [] |}
           {| encode := fun _ => "[]"%string; decode := fun _ => Some [] |}
           {| encode := fun _ => ""%string; decode := fun _ => None |}
           {| encode := fun _ => ""%string; decode := fun _ => None |}
           {| encode := fun _ => ""%string; decode := fun _ => None |}
           7 (2 ^ 63) [] []).
  - vm_compute. reflexivity.
  - unfold i64_max. lia.
  - unfold u64_max. lia.
Defined.

(** Such a balance is reachable: a new account, then one deposit of [2^63]. *)
Lemma large_balance_reachable :
  let l0 := {| accounts := ∅; processed_transactions := ∅ |} in
  let l1 := snd (fst (process_create_account 1 {| ca_keys := [] |} 7 l0)) in
  let l2 := snd (fst (process_deposit 2 {| dep_destination_account_id := 7; dep_amount := 2 ^ 63 |} l1)) in
  fmap balance (accounts l2 !! 7) = Some (2 ^ 63) /\
  fmap transaction_history (accounts l2 !! 7) = Some [].
Proof. vm_compute. split; reflexivity. Qed.

Lemma map_fmap_list {A B} (f : A -> B) (l : list A) : map f l = f <$> l.
Proof. induction l as [|x l IH]; cbn; [done|by rewrite IH]. Qed.

Lemma NoDup_map_through {A B C} (g : A -> B) (h : A -> C) (xs : list A) :
  (forall x y, g x = g y -> h x = h y) -> NoDup (map h xs) -> NoDup (map g xs).
Proof.
  intros Hg. induction xs as [|x xs IH]; cbn; intros Hnd; [constructor|].
  inversion Hnd as [|? ? Hx Hnd']; subst. constructor; [|by apply IH].
  intros Hin. apply list_elem_of_In, in_map_iff in Hin as (y & Hy & Hiny).
  apply Hx, list_elem_of_In. rewrite <- (Hg _ _ Hy). by apply in_map.
Qed.

Lemma Forall2_map_both {A B C} (P : B -> C -> Prop) (f : A -> B) (g : A -> C) (l : list A) :
  (forall x, In x l -> P (f x) (g x)) -> Forall2 P (map f l) (map g l).
Proof.
  induction l as [|x l IH]; intros H; cbn; constructor; [apply H; by left|].
  apply IH. intros y Hy. apply H. by right.
Qed.

(** The [INSERT]s of a [for] loop all succeed, appending in order, when the
    primary keys are pairwise distinct and not in the table yet. *)
Lemma insert_all_pk_ok {A R} (pk : R -> SqlValue) (f : A -> R) (xs : list A) :
  forall t, NoDup (map (fun x => pk (f x)) xs) ->
  (forall x, In x xs -> ~ In (pk (f x)) (map pk t)) ->
  insert_all (fun t x => insert_pk pk t (f x)) t xs = Ok (t ++ map f xs).
Proof.
  induction xs as [|x xs IH]; intros t Hnd Hfree; cbn [insert_all map].
  - by rewrite app_nil_r.
  - inversion Hnd as [|? ? Hx Hnd']; subst. unfold insert_pk at 1.
    destruct (existsb _ t) eqn:E.
    + apply existsb_exists in E as (r & Hr & Hr'). apply bool_decide_eq_true in Hr'.
      exfalso. apply (Hfree x (or_introl eq_refl)). rewrite <- Hr'. by apply in_map.
    + rewrite IH; [by rewrite <- app_assoc|exact Hnd'|].
      intros y Hy Hin. rewrite map_app in Hin. apply in_app_or in Hin as [Hin|[Heq|[]]].
      * exact (Hfree y (or_intror Hy) Hin).
      * apply Hx, list_elem_of_In. rewrite Heq. exact (in_map (fun x => pk (f x)) xs y Hy).
Qed.

Lemma insert_all_pk_inv {A R} (pk : R -> SqlValue) (f : A -> R) (xs : list A) :
  forall t t', insert_all (fun t x => insert_pk pk t (f x)) t xs = Ok t' -> t' = t ++ map f xs.
Proof.
  induction xs as [|x xs IH]; intros t t' H; cbn [insert_all map] in H |- *.
  - injection H as <-. by rewrite app_nil_r.
  - unfold insert_pk at 1 in H. destruct (existsb _ t); [discriminate|].
    apply IH in H. rewrite H. by rewrite <- app_assoc.
Qed.

Lemma load_all_ok {R K V} `{Countable K} (f : R -> result (K * V) LoadError)
    (rows : list R) (kvs : list (K * V)) :
  Forall2 (fun r kv => f r = Ok kv) rows kvs ->
  forall m, load_all f m rows = Ok (foldl (fun m kv => <[kv.1 := kv.2]> m) m kvs).
Proof.
  induction 1 as [|r [k v] rows kvs Hr _ IH]; intros m; cbn [load_all foldl]; [done|].
  rewrite Hr. apply IH.
Qed.

Lemma load_all_ok_inv {R K V} `{Countable K} (f : R -> result (K * V) LoadError) (rows : list R) :
  forall m m', load_all f m rows = Ok m' -> forall r, In r rows -> exists p, f r = Ok p.
Proof.
  induction rows as [|r0 rows IH]; intros m m' Hl r Hr; cbn [load_all] in Hl; [destruct Hr|].
  destruct (f r0) as [[k v]|e] eqn:E; [|discriminate].
  destruct Hr as [<-|Hr]; [eauto|]. eapply IH; eauto.
Qed.

Lemma foldl_insert_union {K V} `{Countable K} (kvs : list (K * V)) :
  forall m : gmap K V, NoDup (map fst kvs) ->
  foldl (fun m kv => <[kv.1 := kv.2]> m) m kvs = list_to_map kvs ∪ m.
Proof.
  induction kvs as [|[k v] kvs IH]; intros m Hnd; cbn [foldl].
  - by rewrite list_to_map_nil, (left_id_L ∅ (∪)).
  - inversion Hnd as [|? ? Hk Hnd']; subst. rewrite IH by done. cbn [fst snd].
    rewrite list_to_map_cons, <- insert_union_l, insert_union_r; [done|].
    apply not_elem_of_list_to_map. rewrite <- map_fmap_list. exact Hk.
Qed.

Lemma integer_affinity_pretty_small (b : N) :
  (Z.of_N b <= i64_max)%Z -> integer_affinity (pretty b) = SqlInteger (Z.of_N b).
Proof.
  intros Hb. unfold integer_affinity. rewrite parse_decimal_pretty.
  destruct (decide _); [reflexivity|lia].
Qed.

(** X15.  Snapshot round trip: when every account is stored under its own
    uuid with a balance of at most [i64::MAX], every transaction under its
    own id, and the text encodings read back what they wrote ([Uuid] for
    every value, the other fields for the values present), [save_state]
    succeeds and [load_state] returns exactly the saved snapshot. *)
Theorem snapshot_roundtrip_ok
    (uuid_c : Codec Uuid) (keys_c : Codec (list Key)) (history_c : Codec (list Uuid))
    (instruction_c : Codec Instruction) (status_c : Codec TransactionStatus)
    (rfc3339_c : Codec Timestamp) (s : Snapshot) :
  (forall u, decode uuid_c (encode uuid_c u) = Some u) ->
  (forall k a, s_accounts s !! k = Some a ->
     p_uuid a = k /\ (Z.of_N (p_balance a) <= i64_max)%Z /\
     decode keys_c (encode keys_c (p_keys a)) = Some (p_keys a) /\
     decode history_c (encode history_c (p_transaction_history a)) = Some (p_transaction_history a)) ->
  (forall k t, s_transactions s !! k = Some t ->
     tx_id t = k /\
     decode instruction_c (encode instruction_c (tx_instruction t)) = Some (tx_instruction t) /\
     decode status_c (encode status_c (tx_status t)) = Some (tx_status t) /\
     decode rfc3339_c (encode rfc3339_c (tx_timestamp t)) = Some (tx_timestamp t)) ->
  exists db,
    save_state uuid_c keys_c history_c instruction_c status_c rfc3339_c s = Ok db /\
    load_state uuid_c keys_c history_c instruction_c status_c rfc3339_c db = Ok s.
Proof.
  intros Hu Hacc Htx.
  assert (Hinj : forall x y, SqlText (encode uuid_c x) = SqlText (encode uuid_c y) -> x = y).
  { intros x y Hxy. injection Hxy as Hxy.
    apply (f_equal (decode uuid_c)) in Hxy. rewrite !Hu in Hxy. by injection Hxy. }
  assert (Ka : map p_uuid (map snd (map_to_list (s_accounts s))) = map fst (map_to_list (s_accounts s))).
  { rewrite map_map. apply map_ext_in. intros [k a] Hin. cbn.
    apply (Hacc k a). apply elem_of_map_to_list, list_elem_of_In, Hin. }
  assert (Kt : map tx_id (map snd (map_to_list (s_transactions s))) = map fst (map_to_list (s_transactions s))).
  { rewrite map_map. apply map_ext_in. intros [k t] Hin. cbn.
    apply (Htx k t). apply elem_of_map_to_list, list_elem_of_In, Hin. }
  assert (Nda : NoDup (map fst (map_to_list (s_accounts s)))).
  { rewrite map_fmap_list. apply NoDup_fst_map_to_list. }
  assert (Ndt : NoDup (map fst (map_to_list (s_transactions s)))).
  { rewrite map_fmap_list. apply NoDup_fst_map_to_list. }
  unfold save_state.
  rewrite (insert_all_pk_ok r_uuid (account_row uuid_c keys_c history_c)).
  2:{ apply (NoDup_map_through _ p_uuid); [intros x y Hxy; by apply Hinj|]. by rewrite Ka. }
  2:{ intros x _ []. }
  rewrite (insert_all_pk_ok r_id (transaction_row uuid_c instruction_c status_c rfc3339_c)).
  2:{ apply (NoDup_map_through _ tx_id); [intros x y Hxy; by apply Hinj|]. by rewrite Kt. }
  2:{ intros x _ []. }
  pose proof (insert_all_pk_ok (fun v => v) (fun x => SqlText (encode uuid_c x))
                (elements (s_processed s)) []) as Ep.
  cbv beta in Ep. rewrite Ep; clear Ep.
  2:{ apply (NoDup_map_through _ (fun x => x)); [intros x y Hxy; by apply Hinj|].
      rewrite map_id. apply NoDup_elements. }
  2:{ intros x _ []. }
  eexists. split; [reflexivity|].
  unfold load_state. cbn [t_accounts t_transactions t_processed app].
  rewrite (load_all_ok _ _ (map_to_list (s_accounts s))).
  2:{ rewrite <- (map_id (map_to_list (s_accounts s))) at 2. rewrite map_map.
      apply Forall2_map_both. intros [k a] Hin.
      apply list_elem_of_In, elem_of_map_to_list in Hin.
      destruct (Hacc k a Hin) as (<- & Hb & Hk & Hh).
      unfold load_account_row, account_row. cbn [r_uuid r_balance r_keys r_history get_string snd].
      rewrite Hu, integer_affinity_pretty_small by exact Hb.
      unfold get_u64. rewrite decide_True by lia. rewrite Hk, Hh, N2Z.id.
      by destruct a. }
  rewrite (load_all_ok _ _ (map_to_list (s_transactions s))).
  2:{ rewrite <- (map_id (map_to_list (s_transactions s))) at 2. rewrite map_map.
      apply Forall2_map_both. intros [k t] Hin.
      apply list_elem_of_In, elem_of_map_to_list in Hin.
      destruct (Htx k t Hin) as (<- & Hi & Hs & Ht).
      unfold load_transaction_row, transaction_row.
      cbn [r_id r_instruction r_status r_timestamp get_string snd].
      rewrite Hu, Hi, Hs, Ht. by destruct t. }
  rewrite (load_all_ok _ _ (map (fun x => (x, ())) (elements (s_processed s)))).
  2:{ apply Forall2_map_both. intros x _. unfold load_processed_row. cbn. by rewrite Hu. }
  rewrite !foldl_insert_union; [| |done|done].
  2:{ rewrite map_map. cbn. rewrite map_id. apply NoDup_elements. }
  rewrite !(right_id_L ∅ (∪)), !list_to_map_to_list.
  rewrite dom_list_to_map_L, <- map_fmap_list, map_map. cbn. rewrite map_id.
  rewrite list_to_set_elements_L. by destruct s.
Qed.

Lemma snapshot_roundtrip_ok_witness :
  let uc := {| encode := pretty; decode := parse_decimal |} in
  let kc := {| encode := fun _ => "[]"%string; decode := fun _ => Some [] |} in
  let hc := {| encode := fun _ => "[]"%string; decode := fun _ => Some [] |} in
  let ic := {| encode := fun _ => "{}"%string; decode := fun _ => Some (GetBalance {| gb_account_id := 7 |}) |} in
  let sc := {| encode := fun _ => "Completed"%string; decode := fun _ => Some Completed |} in
  let rc := {| encode := fun _ => "1970-01-01T00:00:00Z"%string; decode := fun _ => Some 0%Z |} in
  let s := {| s_accounts := {[ 7 := {| p_uuid := 7; p_balance := 5; p_keys := [];
                                      p_transaction_history := [] |} ]};
              s_transactions := {[ 9 := {| tx_id := 9; tx_instruction := GetBalance {| gb_account_id := 7 |};
                                          tx_status := Completed; tx_timestamp := 0%Z |} ]};
              s_processed := {[ 9 ]} |} in
  exists db, save_state uc kc hc ic sc rc s = Ok db /\ load_state uc kc hc ic sc rc db = Ok s.
Proof.
  intros uc kc hc ic sc rc s. apply (snapshot_roundtrip_ok uc kc hc ic sc rc s).
  - intros u. apply parse_decimal_pretty.
  - intros k a Hk. unfold s in Hk. cbn [s_accounts] in Hk.
    apply lookup_singleton_Some in Hk as [<- <-].
    cbn. repeat split. unfold i64_max. lia.
  - intros k t Hk. unfold s in Hk. cbn [s_transactions] in Hk.
    apply lookup_singleton_Some in Hk as [<- <-].
    cbn. repeat split.
Defined.

(** X16.  No snapshot holding an account whose balance exceeds [i64::MAX]
    survives a save and a load: whatever the encodings and the rest of the
    snapshot, either [save_state] fails or loading what it wrote fails. *)
Theorem snapshot_large_balance_not_restored
    (uuid_c : Codec Uuid) (keys_c : Codec (list Key)) (history_c : Codec (list Uuid))
    (instruction_c : Codec Instruction) (status_c : Codec TransactionStatus)
    (rfc3339_c : Codec Timestamp) (s : Snapshot) (k : Uuid) (a : PAccount) :
  s_accounts s !! k = Some a ->
  (i64_max < Z.of_N (p_balance a))%Z ->
  ~ exists db s',
      save_state uuid_c keys_c history_c instruction_c status_c rfc3339_c s = Ok db /\
      load_state uuid_c keys_c history_c instruction_c status_c rfc3339_c db = Ok s'.
Proof.
  intros Hk Hb (db & s' & Hsave & Hload).
  unfold save_state in Hsave.
  destruct (insert_all _ [] (map snd (map_to_list (s_accounts s)))) as [ta|e] eqn:Ea; [|discriminate].
  destruct (insert_all _ [] (map snd (map_to_list (s_transactions s)))) as [tt'|e]; [|discriminate].
  destruct (insert_all _ [] (elements (s_processed s))) as [tp|e]; [|discriminate].
  injection Hsave as <-.
  apply (insert_all_pk_inv r_uuid (account_row uuid_c keys_c history_c)) in Ea.
  unfold load_state in Hload. cbn [t_accounts] in Hload.
  destruct (load_all (load_account_row uuid_c keys_c history_c) ∅ ta) as [accs|e] eqn:La;
    [|discriminate].
  destruct (load_all_ok_inv _ _ _ _ La (account_row uuid_c keys_c history_c a)) as [p Hp].
  { rewrite Ea. cbn. apply in_map, in_map_iff. exists (k, a). split; [done|].
    apply list_elem_of_In, elem_of_map_to_list, Hk. }
  unfold load_account_row, account_row in Hp. cbn [r_uuid r_balance get_string] in Hp.
  destruct (decode uuid_c _); [|discriminate].
  rewrite integer_affinity_pretty_large in Hp by exact Hb. discriminate.
Qed.

Lemma snapshot_large_balance_not_restored_witness :
  let uc := {| encode := pretty; decode := parse_decimal |} in
  let kc := {| encode := fun _ => "[]"%string; decode := fun _ => Some [] |} in
  let hc := {| encode := fun _ => "[]"%string; decode := fun _ => Some [] |} in
  let ic := {| encode := fun _ => ""%string; decode := fun _ => None |} in
  let sc := {| encode := fun _ => ""%string; decode := fun _ => None |} in
  let rc := {| encode := fun _ => ""%string; decode := fun _ => None |} in
  let a := {| p_uuid := 7; p_balance := 2 ^ 63; p_keys := []; p_transaction_history := [] |} in
  let s := {| s_accounts := {[ 7 := a; 8 := {| p_uuid := 8; p_balance := 1; p_keys := [];
                                               p_transaction_history := [] |} ]};
              s_transactions := ∅; s_processed := {[ 3 ]} |} in
  ~ exists db s', save_state uc kc hc ic sc rc s = Ok db /\ load_state uc kc hc ic sc rc db = Ok s'.
Proof.
  intros uc kc hc ic sc rc a s. apply (snapshot_large_balance_not_restored uc kc hc ic sc rc s 7 a).
  - reflexivity.
  - cbn. unfold i64_max. lia.
Defined.


End PersistenceFacts.
